(** * AIVideoSync: the keyframe-to-beat retiming planner and the BPM estimator

    A shallow embedding of [ffmpegAdjustSpeed], [roundToBeat] and [estimateBPM]
    of [syncToBeat/main.go], followed by the naming of the output in [main],
    the overlay filters of [addPulseToVideo], and the keyframe editor script.

    The Go code computes on [float64].  The embedding is written once, over an
    interface of the float64 operations the code uses, and the interface has
    two implementations:

    - [binary64]: IEEE 754 double precision (Rocq's primitive floats), which is
      what Go's [float64] is;
    - [exact]: the rationals, every operation without rounding error, which is
      the arithmetic the prose of the specification reasons in.

    What depends only on the control flow of the code is proved once, for every
    implementation that satisfies a few laws of float64 arithmetic
    ([Float64Laws]), and so for both; what needs arithmetic without rounding
    is proved on [exact]; concrete runs are evaluated on both.  Keyframe times
    come from [json.Unmarshal] and are finite floats.  On [binary64] every
    operation rounds on its own, as the Go compiler has it on amd64 (no fused
    multiply-add). *)

From Stdlib Require Import List ZArith QArith Qround Qabs Qpower Floats String Bool Lia Lqa.
Import ListNotations.

Set Implicit Arguments.
Set Warnings "-inexact-float".

(** ** The float64 interface *)

Declare Scope f64_scope.
Delimit Scope f64_scope with f64.

Class Float64Ops (F : Type) : Type := {
  of_int : Z -> F;            (* an integer constant, or float64(n) of an int *)
  c0_01 : F;                  (* the constant 0.01 *)
  fadd : F -> F -> F;
  fsub : F -> F -> F;
  fmul : F -> F -> F;
  fdiv : F -> F -> F;
  feqb : F -> F -> bool;      (* == *)
  fleb : F -> F -> bool;      (* <= *)
  fltb : F -> F -> bool;      (* < *)
  Round : F -> F;             (* math.Round *)
  is_finite : F -> bool;      (* neither NaN nor an infinity *)
  value : F -> Q              (* the number a finite float stands for *)
}.

Notation "x + y" := (fadd x y) : f64_scope.
Notation "x - y" := (fsub x y) : f64_scope.
Notation "x * y" := (fmul x y) : f64_scope.
Notation "x / y" := (fdiv x y) : f64_scope.
Notation "x == y" := (feqb x y) (at level 70, no associativity) : f64_scope.
Notation "x <= y" := (fleb x y) : f64_scope.
Notation "x < y" := (fltb x y) : f64_scope.
Notation "x >= y" := (fleb y x) : f64_scope.

(** ** Go's float64: IEEE 754 binary64 *)

Module Binary64.

Definition of_Z (z : Z) : float :=
  match z with
  | Z0 => 0%float
  | Zpos _ => PrimFloat.of_uint63 (Uint63.of_Z z)
  | Zneg p => (- PrimFloat.of_uint63 (Uint63.of_Z (Zpos p)))%float
  end.

(** [math.Round]: "Round returns the nearest integer, rounding half away from
    zero", with Round(±0) = ±0, Round(±Inf) = ±Inf and Round(NaN) = NaN.
    A finite float is [±m * 2^e]; when [e >= 0] it is an integer already.
    Otherwise the magnitude is rounded on integers, [(m + 2^(-e) / 2) / 2^(-e)],
    which is below [2^53] and converts back without rounding; the sign is put
    back last, so that a magnitude rounded to 0 keeps the sign of the input. *)
Definition Round (x : float) : float :=
  match Prim2SF x with
  | S754_finite s m e =>
      if (0 <=? e)%Z then x
      else
        let d := Z.pow 2 (- e) in
        let q := of_Z ((Zpos m + d / 2) / d) in
        if s then (- q)%float else q
  | _ => x
  end.

Definition is_finite (x : float) : bool :=
  match Prim2SF x with
  | S754_zero _ | S754_finite _ _ _ => true
  | _ => false
  end.

(** The rational a finite float stands for, [±m * 2^e]; 0 for NaN and the
    infinities. *)
Definition SFvalue (x : spec_float) : Q :=
  match x with
  | S754_finite s m e => (inject_Z (cond_Zopp s (Zpos m)) * Qpower 2 e)%Q
  | _ => 0%Q
  end.

Definition value (x : float) : Q := SFvalue (Prim2SF x).

End Binary64.

#[export] Instance binary64 : Float64Ops float := {
  of_int := Binary64.of_Z;
  c0_01 := 0.01%float;
  fadd := PrimFloat.add;
  fsub := PrimFloat.sub;
  fmul := PrimFloat.mul;
  fdiv := PrimFloat.div;
  feqb := PrimFloat.eqb;
  fleb := PrimFloat.leb;
  fltb := PrimFloat.ltb;
  Round := Binary64.Round;
  is_finite := Binary64.is_finite;
  value := Binary64.value
}.

(** ** Exact arithmetic: the rationals *)

Module Exact.

(** Round half away from zero, on the rationals. *)
Definition Round (x : Q) : Q :=
  inject_Z (if Qle_bool 0 x then Qfloor (x + (1 # 2)) else Qceiling (x - (1 # 2))).

Definition ltb (x y : Q) : bool := negb (Qle_bool y x).

End Exact.

#[export] Instance exact : Float64Ops Q := {
  of_int := inject_Z;
  c0_01 := 1 # 100;
  fadd := Qplus;
  fsub := Qminus;
  fmul := Qmult;
  fdiv := Qdiv;
  feqb := Qeq_bool;
  fleb := Qle_bool;
  fltb := Exact.ltb;
  Round := Exact.Round;
  is_finite := fun _ => true;
  value := fun x => x
}.

(** ** The program *)

Section Program.

Context {F : Type} {ops : Float64Ops F}.
Local Open Scope f64_scope.

(** [type Keyframe struct { Time float64 }] *)
Record Keyframe : Type := { Time : F }.

(** One retimed segment: the four arguments of the filter string
    ["[0:v]trim=start=%f:end=%f,setpts=PTS-STARTPTS*%f[v%d]; "], the last one
    being also the label ["[v%d]"] appended to [concatParts]. *)
Record Segment : Type := {
  sourceStart : F;
  sourceEnd : F;
  speedFactor : F;
  label : nat
}.

(** [math.Round(value*100) / 100] *)
Definition roundToBeat (v : F) : F :=
  Round (v * of_int 100) / of_int 100.

(** [beatNumber * beatDuration] of the loop body. *)
Definition nearestBeatTime (beatDuration t : F) : F :=
  roundToBeat (t / beatDuration) * beatDuration.

(** The divisor of [speedFactor]: [nearestBeatTime - lastTime], replaced by
    0.01 when it compares equal to 0. *)
Definition adjustedSegmentDuration (beatDuration lastTime t : F) : F :=
  let a := nearestBeatTime beatDuration t - lastTime in
  if a == of_int 0 then c0_01 else a.

(** The variables the loop of [ffmpegAdjustSpeed] updates.  [filterComplexParts]
    and [concatParts] grow together, one entry each per emitted segment, and
    are kept as one list. *)
Record LoopState : Type := {
  lastTime : F;
  parts : list Segment
}.

(** One iteration of [for i, kf := range keyframes].  The messages printed on
    the way, and [targetBeatPosition], which is only printed, are left out. *)
Definition step (beatDuration : F) (st : LoopState) (i : nat) (kf : Keyframe) : LoopState :=
  if Nat.eqb i 0 && (Time kf == of_int 0) then st
  else
    let segmentDuration := Time kf - lastTime st in
    if segmentDuration == of_int 0 then st
    else
      let speed := segmentDuration / adjustedSegmentDuration beatDuration (lastTime st) (Time kf) in
      {| lastTime := Time kf;
         parts := parts st ++ [ {| sourceStart := lastTime st;
                                    sourceEnd := Time kf;
                                    speedFactor := speed;
                                    label := i |} ] |}.

Fixpoint loop (beatDuration : F) (st : LoopState) (i : nat) (kfs : list Keyframe) : LoopState :=
  match kfs with
  | [] => st
  | kf :: rest => loop beatDuration (step beatDuration st i kf) (S i) rest
  end.

Definition init : LoopState := {| lastTime := of_int 0; parts := [] |}.

(** The segments the loop emits. *)
Definition emitted (bpm : F) (keyframes : list Keyframe) : list Segment :=
  parts (loop (of_int 60 / bpm) init 0 keyframes).

(** [ffmpegAdjustSpeed] from [beatDuration := 60 / bpm] to the test on
    [len(concatParts)].  Looking up ffmpeg before, and running it on the
    filter graph after, belong to the transcoding engine and are not modelled:
    the result is the error of the planner or the plan handed to the
    engine. *)
Definition ffmpegAdjustSpeed (bpm : F) (keyframes : list Keyframe) : string + list Segment :=
  let concatParts := emitted bpm keyframes in
  if Nat.eqb (List.length concatParts) 0 then inl "no segments to process"%string
  else inr concatParts.

(** The loop over [multipliers], left at the first product in [50, 200]. *)
Fixpoint closest (initialEstimate closestBPM : F) (multipliers : list F) : F :=
  match multipliers with
  | [] => closestBPM
  | multiplier :: rest =>
      let adjustedBPM := initialEstimate * multiplier in
      if (adjustedBPM >= of_int 50) && (adjustedBPM <= of_int 200) then adjustedBPM
      else closest initialEstimate closestBPM rest
  end.

(** [for i := 1; i < len(keyframes); i++ { totalInterval += k[i] - k[i-1] }],
    entered with [prev = keyframes[0]]. *)
Fixpoint totalInterval (acc : F) (prev : Keyframe) (rest : list Keyframe) : F :=
  match rest with
  | [] => acc
  | kf :: rest' => totalInterval (acc + (Time kf - Time prev)) kf rest'
  end.

Definition estimateBPM (keyframes : list Keyframe) : F :=
  match keyframes with
  | [] | [_] => of_int 0
  | k0 :: rest =>
      let total := totalInterval (of_int 0) k0 rest in
      let averageInterval := total / of_int (Z.of_nat (List.length keyframes) - 1) in
      let initialEstimate := of_int 60 / averageInterval in
      closest initialEstimate initialEstimate [of_int 1; of_int 2; of_int 4]
  end.

End Program.

Arguments Keyframe F : clear implicits.
Arguments Segment F : clear implicits.
Arguments LoopState F : clear implicits.

Definition kf64 (t : float) : Keyframe float := {| Time := t |}.
Definition kfQ (t : Q) : Keyframe Q := {| Time := t |}.

(** A segment of the exact model with its three numbers in lowest terms. *)
Definition readQ (s : Segment Q) : Q * Q * Q * nat :=
  (Qred (sourceStart s), Qred (sourceEnd s), Qred (speedFactor s), label s).



(** ** The older planner

    A second copy of the program in the repository differs from [main.go] in
    the rounding of the beat index: [beatNumber := round(kf.Time /
    beatDuration)] with [round(f) = math.Round(f)], whole beats instead of
    hundredths of a beat. *)

Module WholeBeat.

Definition round {F : Type} {ops : Float64Ops F} (f : F) : F := Round f.

Definition nearestBeatTime {F : Type} {ops : Float64Ops F} (beatDuration t : F) : F :=
  (round (t / beatDuration) * beatDuration)%f64.

End WholeBeat.

(** ** Reading the loop *)

Section Reading.

Context {F : Type} {ops : Float64Ops F}.
Local Open Scope f64_scope.

(** The two [continue] guards of the loop body: the first keyframe at time 0,
    and a source duration that compares equal to 0. *)
Definition skips (st : LoopState F) (i : nat) (kf : Keyframe F) : bool :=
  (Nat.eqb i 0 && (Time kf == of_int 0)) || (Time kf - lastTime st == of_int 0).

(** The segment an iteration emits when neither guard fires. *)
Definition segment_of (beatDuration : F) (st : LoopState F) (i : nat) (kf : Keyframe F) : Segment F :=
  {| sourceStart := lastTime st;
     sourceEnd := Time kf;
     speedFactor := (Time kf - lastTime st)
                    / adjustedSegmentDuration beatDuration (lastTime st) (Time kf);
     label := i |}.

(** What every emitted segment looks like: a source duration that does not
    compare equal to 0, and a speed factor that is the quotient of the source
    duration by the adjusted target duration. *)
Definition well_formed (beatDuration : F) (s : Segment F) : Prop :=
  (sourceEnd s - sourceStart s == of_int 0) = false /\
  speedFactor s
  = (sourceEnd s - sourceStart s) / adjustedSegmentDuration beatDuration (sourceStart s) (sourceEnd s).

(** Segments laid end to end from [start]. *)
Fixpoint chained (start : F) (l : list (Segment F)) : Prop :=
  match l with
  | [] => True
  | s :: rest => sourceStart s = start /\ chained (sourceEnd s) rest
  end.

(** Where a chain of segments that starts at [start] ends. *)
Definition end_of (start : F) (l : list (Segment F)) : F :=
  last (map (@sourceEnd F) l) start.

(** The sum of [sourceEnd - sourceStart] over the segments, as a number. *)
Definition source_length (l : list (Segment F)) : Q :=
  fold_right Qplus 0%Q (map (fun s => (value (sourceEnd s) - value (sourceStart s))%Q) l).

(** The time of the last keyframe (0 when there is none). *)
Definition last_time (kfs : list (Keyframe F)) : F :=
  last (map (@Time F) kfs) (of_int 0).

(** [adjustedBPM >= 50 && adjustedBPM <= 200] *)
Definition plausible (bpm : F) : bool := (bpm >= of_int 50) && (bpm <= of_int 200).

(** The consecutive intervals [k[i].time - k[i-1].time], in order. *)
Fixpoint intervals (prev : Keyframe F) (rest : list (Keyframe F)) : list F :=
  match rest with
  | [] => []
  | kf :: rest' => (Time kf - Time prev) :: intervals kf rest'
  end.

(** The specification's [initialEstimate]: 60 over the mean of the consecutive
    intervals, the intervals added up from left to right. *)
Definition initial_estimate (keyframes : list (Keyframe F)) : F :=
  match keyframes with
  | [] => of_int 0
  | k0 :: rest =>
      let avgInterval :=
        fold_left fadd (intervals k0 rest) (of_int 0)
        / of_int (Z.of_nat (List.length keyframes) - 1) in
      of_int 60 / avgInterval
  end.

(** The tempo estimate as the specification words it: with fewer than two
    keyframes 0; otherwise the first of the multipliers 1, 2, 4 that brings
    [initialEstimate] into [50, 200] is applied, and when none does the
    estimate is returned as it is. *)
Definition spec_estimate (keyframes : list (Keyframe F)) : F :=
  match keyframes with
  | [] | [_] => of_int 0
  | _ =>
      let initialEstimate := initial_estimate keyframes in
      match find (fun m => plausible (initialEstimate * m)) [of_int 1; of_int 2; of_int 4] with
      | Some m => initialEstimate * m
      | None => initialEstimate
      end
  end.

(** The time of the first keyframe (0 when there is none). *)
Definition first_time (kfs : list (Keyframe F)) : F :=
  hd (of_int 0) (map (@Time F) kfs).

End Reading.

(** The specification's rounding of a beat index [x], as a relation on exact
    numbers: [r] is a multiple of 0.01, no multiple of 0.01 is nearer to [x],
    and of two nearest ones [r] is the one away from zero. *)
Definition rounds_to_hundredth (x r : Q) : Prop :=
  (exists z : Z, r == inject_Z z / 100)%Q /\
  (Qabs (r - x) <= 1 # 200)%Q /\
  (Qabs (r - x) == 1 # 200 -> Qabs x < Qabs r)%Q.

(** The estimate as a function of the first time, the last time and the number
    of keyframes, in exact arithmetic. *)
Definition estimate_from (first last : Q) (n : nat) : Q :=
  let avgInterval := ((last - first) / inject_Z (Z.of_nat n - 1))%Q in
  let initialEstimate := (60 / avgInterval)%Q in
  closest initialEstimate initialEstimate [1; 2; 4]%Q.

(** ** What the proofs use of float64 arithmetic *)

Class Float64Laws (F : Type) {ops : Float64Ops F} : Prop := {
  c0_01_nonzero : (c0_01 == of_int 0)%f64 = false;
  sub_zero_eqb : forall x : F, (x - of_int 0 == of_int 0)%f64 = (x == of_int 0)%f64;
  sub_diag_eqb : forall x : F, is_finite x = true -> (x - x == of_int 0)%f64 = true;
  lt_zero_neqb : forall x : F, (of_int 0 < x)%f64 = true -> (x == of_int 0)%f64 = false;
  zero_finite : is_finite (of_int 0) = true;
  value_of_zero : (value (of_int 0) == 0)%Q;
  value_zero : forall x : F, (x == of_int 0)%f64 = true -> (value x == 0)%Q;
  sub_eq0_value : forall x y : F,
    (x - y == of_int 0)%f64 = true -> (value x == value y)%Q
}.

Arguments Float64Laws F {ops}.


(** ** More of the program *)

From Stdlib Require Import Sorted Ascii.

Section MoreReading.

Context {F : Type} {ops : Float64Ops F}.
Local Open Scope f64_scope.

(** The keyframe times a plan keeps as segment ends, [last] being the end
    before: a time that compares equal to the end before it is left out. *)
Fixpoint boundaries (last : F) (ts : list F) : list F :=
  match ts with
  | [] => []
  | t :: rest => if t == last then boundaries last rest else t :: boundaries t rest
  end.

End MoreReading.

(** A keyframe moved by [c] seconds. *)
Definition moved (c : Q) (kf : Keyframe Q) : Keyframe Q := {| Time := (Time kf + c)%Q |}.

(** One more law of float64 arithmetic: a difference of finite numbers
    compares equal to 0 exactly when the numbers compare equal. *)
Class Float64Equal (F : Type) {ops : Float64Ops F} : Prop := {
  sub_eq0_eqb : forall x y : F,
    is_finite x = true -> is_finite y = true ->
    (x - y == of_int 0)%f64 = (x == y)%f64
}.

Arguments Float64Equal F {ops}.

(** ** The name of the output ([main]) *)

Module GoStrings.

(** [strings.LastIndex(s, sep)] for a separator of one byte: the index of its
    last occurrence in [s], or -1. *)
Fixpoint LastIndex (s : string) (sep : ascii) : Z :=
  match s with
  | EmptyString => -1
  | String c rest =>
      let k := LastIndex rest sep in
      if (0 <=? k)%Z then (k + 1)%Z else if Ascii.eqb c sep then 0%Z else (-1)%Z
  end.

Fixpoint drop (k : nat) (s : string) : string :=
  match k, s with
  | O, _ => s
  | S k', String _ rest => drop k' rest
  | S _, EmptyString => EmptyString
  end.

(** The slice [s[k:]], for [0 <= k <= len(s)]. *)
Definition slice_from (s : string) (k : Z) : string := drop (Z.to_nat k) s.

Fixpoint contains (s : string) (c : ascii) : bool :=
  match s with
  | EmptyString => false
  | String a rest => Ascii.eqb a c || contains rest c
  end.

End GoStrings.

Section OutputName.

Import GoStrings.
Local Open Scope string_scope.

(** [originalVideoPath[strings.LastIndex(originalVideoPath, "/")+1:]] *)
Definition originalVideoFilename (originalVideoPath : string) : string :=
  slice_from originalVideoPath (LastIndex originalVideoPath "/" + 1).

(** [originalVideoFilename[strings.LastIndex(originalVideoFilename, ".")+1:]] *)
Definition originalExtension (originalVideoFilename : string) : string :=
  slice_from originalVideoFilename (LastIndex originalVideoFilename "." + 1).

(** [fmt.Sprintf("%s_sync%.0f.%s", originalVideoFilename, bpm,
    originalExtension)], with [bpm0] for the rendering of [bpm] by [%.0f]. *)
Definition outputPath (originalVideoPath bpm0 : string) : string :=
  let name := originalVideoFilename originalVideoPath in
  name ++ "_sync" ++ bpm0 ++ "." ++ originalExtension name.

End OutputName.


(** ** The pulse overlay *)

(** What [addPulseToVideo] needs besides: the constant 0.2 and the conversion
    [int(f)], which discards the fraction.  Go leaves the result open when the
    value does not fit an int; on amd64 it is then the least int64. *)
Class PulseOps (F : Type) : Type := {
  c0_2 : F;
  to_int : F -> Z
}.

Definition Binary64_to_int (x : float) : Z :=
  match Prim2SF x with
  | S754_zero _ => 0
  | S754_finite s m e =>
      let a := if (0 <=? e)%Z then (Zpos m * 2 ^ e)%Z else (Zpos m / 2 ^ (- e))%Z in
      let v := if s then (- a)%Z else a in
      if ((- 2 ^ 63 <=? v) && (v <? 2 ^ 63))%Z then v else (- 2 ^ 63)%Z
  | _ => (- 2 ^ 63)%Z
  end.

#[export] Instance binary64_pulse : PulseOps float := {
  c0_2 := 0.2%float;
  to_int := Binary64_to_int
}.

#[export] Instance exact_pulse : PulseOps Q := {
  c0_2 := 1 # 5;
  to_int := fun x => if Qle_bool 0 x then Qfloor x else Qceiling x
}.

Section Pulse.

Context {F : Type} {ops : Float64Ops F} {pulse : PulseOps F}.
Local Open Scope f64_scope.

(** One overlay filter
    ["[0:v][white]overlay='if(between(t,%f,%f),1,0)':shortest=1[v%d];"]:
    its three arguments. *)
Record Overlay : Type := {
  pulseStart : F;
  pulseEnd : F;
  out : Z
}.

(** [for i := 0; i <= numBeats; i++], from [i] on: [fuel] bounds the number of
    rounds, and [numBeats + 1 - i] of it are used. *)
Fixpoint overlays (beatDuration : F) (numBeats : Z) (i : Z) (fuel : nat) : list Overlay :=
  match fuel with
  | O => []
  | S fuel' =>
      if (i <=? numBeats)%Z then
        let start := of_int i * beatDuration in
        {| pulseStart := start; pulseEnd := start + c0_2; out := i |}
        :: overlays beatDuration numBeats (i + 1) fuel'
      else []
  end.

(** [addPulseToVideo] of [main.go], between the probe of the duration and the
    call of ffmpeg: the overlay filters and the label mapped to the output. *)
Definition addPulseToVideo (totalDuration bpm : F) : list Overlay * Z :=
  let beatDuration := of_int 60 / bpm in
  let numBeats := to_int (totalDuration / beatDuration) in
  (overlays beatDuration numBeats 0 (Z.to_nat (numBeats + 1)), numBeats).

End Pulse.

Arguments Overlay F : clear implicits.


(** ** The keyframe editor *)

Module Editor.

Local Open Scope string_scope.
Local Open Scope list_scope.

(** A value as [JSON.parse] returns it; an object is the list of its own
    properties in their order. *)
#[local] Set Warnings "-register-all".
Inductive JSON : Type :=
| JNull
| JBool (b : bool)
| JNum (x : float)
| JStr (s : string)
| JArr (l : list JSON)
| JObj (o : list (string * JSON)).

Definition Obj : Type := list (string * JSON).

(** ['k' in o] *)
Definition has (k : string) (o : Obj) : bool :=
  existsb (fun p => String.eqb (fst p) k) o.

(** [o.k], [None] for [undefined] *)
Fixpoint get (k : string) (o : Obj) : option JSON :=
  match o with
  | [] => None
  | (k', v) :: rest => if String.eqb k' k then Some v else get k rest
  end.

(** [o.k = v]: the property keeps its place when it is there, and comes last
    when it is new. *)
Fixpoint set (k : string) (v : JSON) (o : Obj) : Obj :=
  match o with
  | [] => [(k, v)]
  | (k', v') :: rest => if String.eqb k' k then (k', v) :: rest else (k', v') :: set k v rest
  end.

(** [({x, ...rest}) => rest] *)
Definition without_x (o : Obj) : Obj :=
  filter (fun p => negb (String.eqb (fst p) "x")) o.

Record State : Type := {
  keyframes : list Obj;
  videoDuration : float;
  canvasWidth : float
}.

Section Handlers.

(** The number JavaScript makes of [keyframe.time] in a division
    ([undefined] for a missing property), and the hit test of the context
    menu handler, [Math.sqrt((kf.x - x) ** 2) <= 5], on [kf.x] and [x]. *)
Variable ToNumber : option JSON -> float.
Variable hit : option JSON -> float -> bool.

(** [drawKeyframes], for what it does to the keyframes: [keyframe.x = x]. *)
Definition drawKeyframes (st : State) : State :=
  {| keyframes :=
       map (fun keyframe =>
              let x := (ToNumber (get "time" keyframe) / videoDuration st
                        * canvasWidth st)%float in
              set "x" (JNum x) keyframe)
           (keyframes st);
     videoDuration := videoDuration st;
     canvasWidth := canvasWidth st |}.

(** [keyframes.findIndex(...)] and [keyframes.splice(index, 1)] *)
Fixpoint remove_first (f : Obj -> bool) (l : list Obj) : option (list Obj) :=
  match l with
  | [] => None
  | k :: rest =>
      if f k then Some rest
      else match remove_first f rest with
           | Some rest' => Some (k :: rest')
           | None => None
           end
  end.

(** [Array.isArray(json) && json.every(kf => 'time' in kf)]; [in] throws on
    a value that is not an object, and an array has no property [time]: either
    way the keyframes are not loaded. *)
Definition accepted (json : JSON) : option (list Obj) :=
  match json with
  | JArr l =>
      if forallb (fun kf => match kf with JObj o => has "time" o | _ => false end) l
      then Some (flat_map (fun kf => match kf with JObj o => [o] | _ => [] end) l)
      else None
  | _ => None
  end.

Inductive Event : Type :=
| VideoLoaded (duration width : float)   (* onloadedmetadata *)
| Resize (width : float)                 (* window resize *)
| AddKeyframe (currentTime : float)      (* click on addKeyframe *)
| ContextMenu (x : float)                (* right click on the canvas *)
| DropJson (parsed : option JSON)        (* drop of a JSON file; None: JSON.parse throws *)
| ClearKeyframes.                        (* click on clearKeyframes *)

Definition handle (st : State) (e : Event) : State :=
  match e with
  | VideoLoaded d w =>
      drawKeyframes {| keyframes := keyframes st; videoDuration := d; canvasWidth := w |}
  | Resize w =>
      drawKeyframes {| keyframes := keyframes st; videoDuration := videoDuration st;
                       canvasWidth := w |}
  | AddKeyframe t =>
      drawKeyframes {| keyframes := keyframes st ++ [[("time", JNum t)]];
                       videoDuration := videoDuration st; canvasWidth := canvasWidth st |}
  | ContextMenu x =>
      match remove_first (fun kf => hit (get "x" kf) x) (keyframes st) with
      | Some l =>
          drawKeyframes {| keyframes := l; videoDuration := videoDuration st;
                           canvasWidth := canvasWidth st |}
      | None => st
      end
  | DropJson (Some json) =>
      match accepted json with
      | Some l =>
          drawKeyframes {| keyframes := l; videoDuration := videoDuration st;
                           canvasWidth := canvasWidth st |}
      | None => st
      end
  | DropJson None => st
  | ClearKeyframes =>
      drawKeyframes {| keyframes := []; videoDuration := videoDuration st;
                       canvasWidth := canvasWidth st |}
  end.

Definition run (st : State) (events : list Event) : State := fold_left handle events st.

(** [keyframes.map(({x, ...rest}) => rest)] of the save handler: what is
    serialised. *)
Definition keyframesToSave (st : State) : list Obj := map without_x (keyframes st).

End Handlers.

Definition start : State :=
  {| keyframes := []; videoDuration := 0%float; canvasWidth := 0%float |}.

Definition times (l : list Obj) : list (option JSON) := map (get "time") l.

End Editor.

(** ** binary64 satisfies the laws *)

(** Facts on the specification of IEEE 754 arithmetic ([SpecFloat]), at the
    binary64 format. *)
Module SF.

Local Open Scope Z_scope.

Lemma emin_val : emin = -1074.
Proof. reflexivity. Qed.

Lemma digits2_size (p : positive) : digits2_pos p = Pos.size p.
Proof. induction p; simpl; congruence. Qed.

Lemma digits2_bounds (p : positive) :
  2 ^ (Zpos (digits2_pos p) - 1) <= Zpos p < 2 ^ Zpos (digits2_pos p).
Proof.
  rewrite digits2_size. split.
  - pose proof (Pos.size_le p) as H.
    assert (E : 2 ^ Zpos (Pos.size p) = 2 * 2 ^ (Zpos (Pos.size p) - 1)).
    { rewrite <- Z.pow_succ_r by lia. f_equal. lia. }
    assert (H' : (2 ^ Zpos (Pos.size p) <= 2 * Zpos p)).
    { change 2 with (Zpos 2) at 1. rewrite <- Pos2Z.inj_pow. lia. }
    lia.
  - pose proof (Pos.size_gt p) as H.
    change 2 with (Zpos 2). rewrite <- Pos2Z.inj_pow. lia.
Qed.

Lemma shr_1_m (mrs : shr_record) :
  0 <= shr_m mrs -> shr_m (shr_1 mrs) = shr_m mrs / 2.
Proof.
  destruct mrs as [m r s]. simpl. intros Hm.
  destruct m as [|[p|p|]|p]; simpl; try lia; try reflexivity.
  - apply Z.div_unique with (r := 1); lia.
  - apply Z.div_unique with (r := 0); lia.
Qed.

Lemma pow2_xO (p : positive) : 2 ^ Zpos p~0 = 2 ^ Zpos p * 2 ^ Zpos p.
Proof. rewrite <- Z.pow_add_r by lia. f_equal. lia. Qed.

Lemma pow2_xI (p : positive) : 2 ^ Zpos p~1 = 2 * (2 ^ Zpos p * 2 ^ Zpos p).
Proof. rewrite <- Z.pow_add_r, <- Z.pow_succ_r by lia. f_equal. lia. Qed.

Lemma iter_shr_1_m (p : positive) (mrs : shr_record) :
  0 <= shr_m mrs -> shr_m (iter_pos shr_1 p mrs) = shr_m mrs / 2 ^ Zpos p.
Proof.
  revert mrs. induction p as [p IH|p IH|]; intros mrs Hm; simpl iter_pos.
  - assert (H1 : 0 <= shr_m (shr_1 mrs)) by (rewrite shr_1_m by lia; apply Z.div_pos; lia).
    assert (H2 : 0 <= shr_m (iter_pos shr_1 p (shr_1 mrs))) by (rewrite IH by lia; apply Z.div_pos; lia).
    rewrite IH, IH, shr_1_m by lia.
    rewrite !Z.div_div by lia. f_equal.
    rewrite pow2_xI. lia.
  - assert (H2 : 0 <= shr_m (iter_pos shr_1 p mrs)) by (rewrite IH by lia; apply Z.div_pos; lia).
    rewrite IH, IH by lia.
    rewrite !Z.div_div by lia. f_equal.
    rewrite pow2_xO. lia.
  - rewrite shr_1_m by lia. reflexivity.
Qed.

Lemma shr_record_of_loc_m (m : Z) (l : location) : shr_m (shr_record_of_loc m l) = m.
Proof. destruct l as [|[]]; reflexivity. Qed.

(** Rounding to the format never shifts a nonzero mantissa out, as long as
    the exponent is not below [emin]. *)
Lemma shr_fexp_pos (m e : Z) (l : location) :
  0 < m -> emin <= e ->
  0 < shr_m (fst (shr_fexp prec emax m e l)) /\ emin <= snd (shr_fexp prec emax m e l).
Proof.
  intros Hm He. unfold shr_fexp, shr.
  destruct m as [|p|p]; try lia.
  pose proof (digits2_bounds p) as [Hlo Hhi].
  unfold Zdigits2, fexp, SpecFloat.emin, emin, prec, emax in *.
  set (d := Zpos (digits2_pos p)) in *.
  destruct (Z.max (d + e - 53) (3 - 1024 - 53) - e) as [|n|n] eqn:En; simpl fst; simpl snd.
  - rewrite shr_record_of_loc_m. lia.
  - rewrite iter_shr_1_m by (rewrite shr_record_of_loc_m; lia).
    rewrite shr_record_of_loc_m. split; [|lia].
    apply Z.div_str_pos. split; [apply Z.pow_pos_nonneg; lia|].
    apply Z.le_trans with (2 ^ (d - 1)); [|lia].
    apply Z.pow_le_mono_r; lia.
  - rewrite shr_record_of_loc_m. lia.
Qed.

Lemma round_nearest_even_pos (m : Z) (l : location) : 0 < m -> 0 < round_nearest_even m l.
Proof. intros Hm. destruct l as [|[]]; simpl; try lia. destruct (Z.even m); lia. Qed.

Lemma binary_round_aux_nonzero (s : bool) (m e : Z) (l : location) (s' : bool) :
  0 < m -> emin <= e -> binary_round_aux prec emax s m e l <> S754_zero s'.
Proof.
  intros Hm He. unfold binary_round_aux.
  pose proof (@shr_fexp_pos m e l Hm He) as [H1 H1'].
  destruct (shr_fexp prec emax m e l) as [mrs' e'] eqn:E1. simpl in H1, H1'.
  pose proof (@shr_fexp_pos _ e' loc_Exact (@round_nearest_even_pos _ (loc_of_shr_record mrs') H1) H1') as [H2 _].
  destruct (shr_fexp prec emax _ e' loc_Exact) as [mrs'' e''] eqn:E2. simpl in H2.
  destruct (shr_m mrs''); try lia.
  destruct (e'' <=? emax - prec); discriminate.
Qed.

Lemma iter_xO (m d : positive) : Zpos (Pos.iter xO m d) = Zpos m * 2 ^ Zpos d.
Proof.
  induction d as [|d IH] using Pos.peano_ind.
  - simpl. lia.
  - rewrite Pos.iter_succ, Pos2Z.inj_succ, Z.pow_succ_r by lia.
    change (Zpos (Pos.iter xO m d)~0) with (2 * Zpos (Pos.iter xO m d)).
    rewrite IH. lia.
Qed.

Lemma shl_align_spec (m : positive) (e e' : Z) :
  e' <= e -> shl_align m e e' = (Z.to_pos (Zpos m * 2 ^ (e - e')), e').
Proof.
  intros H. unfold shl_align.
  destruct (e' - e) as [|d|d] eqn:E; try lia.
  - assert (e = e') by lia. subst. rewrite Z.sub_diag, Z.mul_1_r. reflexivity.
  - f_equal. apply Pos2Z.inj. rewrite iter_xO.
    rewrite Z2Pos.id by (apply Z.mul_pos_pos; [lia|apply Z.pow_pos_nonneg; lia]).
    f_equal. f_equal. lia.
Qed.

Lemma shl_align_exp (m : positive) (e e' : Z) :
  emin <= e -> emin <= e' -> emin <= snd (shl_align m e e').
Proof. intros. unfold shl_align. destruct (e' - e); simpl; lia. Qed.

Lemma binary_round_nonzero (s : bool) (m : positive) (e : Z) (s' : bool) :
  emin <= e -> binary_round prec emax s m e <> S754_zero s'.
Proof.
  intros He. unfold binary_round.
  pose proof (@shl_align_exp m e (fexp prec emax (Zpos (digits2_pos m) + e)) He) as H.
  destruct (shl_align m e _) as [mz ez]. simpl in H.
  apply binary_round_aux_nonzero; [lia|].
  apply H. unfold fexp, SpecFloat.emin, emin, prec, emax. lia.
Qed.

Lemma binary_normalize_zero (m e : Z) (sz s' : bool) :
  emin <= e -> binary_normalize prec emax m e sz = S754_zero s' -> m = 0.
Proof.
  intros He. destruct m; simpl; intros H; [reflexivity| |];
    exfalso; revert H; now apply binary_round_nonzero.
Qed.

Lemma valid_exp (s : bool) (m : positive) (e : Z) :
  valid_binary (S754_finite s m e) = true -> emin <= e.
Proof.
  simpl. unfold bounded, canonical_mantissa, fexp, SpecFloat.emin, emin, prec, emax.
  intros H. apply andb_prop in H. destruct H as [H _]. apply Z.eqb_eq in H. lia.
Qed.

Lemma Qpower_2_split (a b : Z) : (a <= b)%Z -> (Qpower 2 b == inject_Z (2 ^ (b - a)) * Qpower 2 a)%Q.
Proof.
  intros H. rewrite Zpower_Qpower by lia.
  rewrite <- Qpower_plus by discriminate.
  replace (b - a + a) with b by lia. reflexivity.
Qed.

(** A difference that rounds to zero is the difference of equal numbers. *)
Lemma sub_zero_value (x y : spec_float) (s : bool) :
  valid_binary x = true -> valid_binary y = true ->
  SFsub prec emax x y = S754_zero s -> (Binary64.SFvalue x == Binary64.SFvalue y)%Q.
Proof.
  intros Vx Vy.
  destruct x as [sx|sx| |sx mx ex], y as [sy|sy| |sy my ey]; simpl;
    try discriminate; try reflexivity;
    try (destruct sx, sy; discriminate); try (destruct sx; discriminate).
  intros H.
  apply valid_exp in Vx, Vy.
  change (IntDef.Z.min ex ey) with (Z.min ex ey) in H.
  rewrite emin_val in Vx, Vy.
  assert (Hz : emin <= Z.min ex ey) by (rewrite emin_val; lia).
  apply (@binary_normalize_zero _ _ _ _ Hz) in H.
  rewrite !shl_align_spec in H by lia. cbn [fst] in H.
  set (ez := Z.min ex ey) in *.
  assert (Hx : 0 < Zpos mx * 2 ^ (ex - ez)) by (apply Z.mul_pos_pos; [lia|apply Z.pow_pos_nonneg; lia]).
  assert (Hy : 0 < Zpos my * 2 ^ (ey - ez)) by (apply Z.mul_pos_pos; [lia|apply Z.pow_pos_nonneg; lia]).
  rewrite !Z2Pos.id in H by lia.
  rewrite (@Qpower_2_split ez ex), (@Qpower_2_split ez ey) by lia.
  rewrite !Qmult_assoc, <- !inject_Z_mult.
  assert (E : cond_Zopp sx (Zpos mx) * 2 ^ (ex - ez) = cond_Zopp sy (Zpos my) * 2 ^ (ey - ez)).
  { destruct sx, sy; unfold cond_Zopp in *; lia. }
  rewrite E. reflexivity.
Qed.

Lemma digits2_unique (p : positive) (n : Z) :
  2 ^ (n - 1) <= Zpos p < 2 ^ n -> Zpos (digits2_pos p) = n.
Proof.
  intros [Hlo Hhi]. pose proof (digits2_bounds p) as [Dlo Dhi].
  set (d := Zpos (digits2_pos p)) in *.
  assert (Hd : 0 < d) by (unfold d; lia).
  assert (Hn : 0 < n).
  { destruct (Z_lt_le_dec 0 n) as [|Hn0]; [assumption|].
    assert (2 ^ n <= 2 ^ 0) by (apply Z.pow_le_mono_r; lia). simpl in *. lia. }
  assert (H1 : d - 1 < n).
  { apply (Z.pow_lt_mono_r_iff 2); lia. }
  assert (H2 : n - 1 < d).
  { apply (Z.pow_lt_mono_r_iff 2); lia. }
  lia.
Qed.

Lemma valid_mantissa (s : bool) (m : positive) (e : Z) :
  valid_binary (S754_finite s m e) = true -> Zpos m < 2 ^ 53.
Proof.
  intros H. change (bounded prec emax m e = true) in H.
  unfold bounded, canonical_mantissa, fexp, SpecFloat.emin, emin, prec, emax in H.
  apply andb_prop in H. destruct H as [H _]. apply Z.eqb_eq in H.
  pose proof (digits2_bounds m) as [_ Hhi].
  apply Z.lt_le_trans with (1 := Hhi). apply Z.pow_le_mono_r; lia.
Qed.

(** An integer below [2^53] converts to binary64 without rounding. *)
Lemma binary_round_exact (q : positive) :
  Zpos q < 2 ^ 53 ->
  (Binary64.SFvalue (binary_round prec emax false q 0) == inject_Z (Zpos q))%Q.
Proof.
  intros Hq. pose proof (digits2_bounds q) as [Dlo Dhi].
  set (dg := Zpos (digits2_pos q)) in *.
  assert (Hdg : 1 <= dg <= 53).
  { split; [unfold dg; lia|].
    assert (dg - 1 < 53) by (apply (Z.pow_lt_mono_r_iff 2); lia). lia. }
  unfold binary_round. fold dg.
  assert (Ef : fexp prec emax (dg + 0) = dg - 53).
  { unfold fexp, SpecFloat.emin, emin, prec, emax. lia. }
  rewrite Ef, shl_align_spec by lia.
  set (mz := Z.to_pos (Zpos q * 2 ^ (0 - (dg - 53)))).
  assert (Hmz : Zpos mz = Zpos q * 2 ^ (53 - dg)).
  { unfold mz. rewrite Z2Pos.id.
    - f_equal. f_equal. lia.
    - apply Z.mul_pos_pos; [lia|apply Z.pow_pos_nonneg; lia]. }
  assert (Hpow : 2 ^ (dg - 1) * 2 ^ (53 - dg) = 2 ^ 52).
  { rewrite <- Z.pow_add_r by lia. f_equal. lia. }
  assert (Hpow' : 2 ^ dg * 2 ^ (53 - dg) = 2 ^ 53).
  { rewrite <- Z.pow_add_r by lia. f_equal. lia. }
  assert (Hp : 0 < 2 ^ (53 - dg)) by (apply Z.pow_pos_nonneg; lia).
  assert (Dmz : Zpos (digits2_pos mz) = 53).
  { apply digits2_unique. rewrite Hmz. change (53 - 1) with 52. nia. }
  assert (Eshr : shr_fexp prec emax (Zpos mz) (dg - 53) loc_Exact
                 = (Build_shr_record (Zpos mz) false false, dg - 53)).
  { unfold shr_fexp, Zdigits2. rewrite Dmz.
    replace (fexp prec emax (53 + (dg - 53)) - (dg - 53)) with 0
      by (unfold fexp, SpecFloat.emin, emin, prec, emax; lia).
    reflexivity. }
  unfold binary_round_aux.
  rewrite Eshr. cbn [shr_m loc_of_shr_record round_nearest_even].
  rewrite Eshr. cbn [shr_m].
  replace (dg - 53 <=? emax - prec) with true
    by (symmetry; apply Z.leb_le; unfold emax, prec; lia).
  unfold Binary64.SFvalue, cond_Zopp. rewrite Hmz, inject_Z_mult.
  rewrite Zpower_Qpower by lia. rewrite <- Qmult_assoc, <- Qpower_plus by discriminate.
  replace (53 - dg + (dg - 53)) with 0 by lia. simpl Qpower. ring.
Qed.

End SF.

Module Binary64Facts.

Lemma zero_SF : Prim2SF (of_int 0) = S754_zero false.
Proof. reflexivity. Qed.

Lemma sub_zero (x : float) : (x - 0)%float = x.
Proof.
  apply Prim2SF_inj. rewrite FloatAxioms.sub_spec.
  change (Prim2SF 0%float) with (S754_zero false).
  destruct (Prim2SF x) as [[|]|[|]| |s m e]; reflexivity.
Qed.

Lemma eqb_zero_SF (x : float) :
  (x =? 0)%float = match Prim2SF x with S754_zero _ => true | _ => false end.
Proof.
  rewrite FloatAxioms.eqb_spec. change (Prim2SF 0%float) with (S754_zero false).
  destruct (Prim2SF x) as [[|]|[|]| |[|] m e]; reflexivity.
Qed.

Lemma sub_diag (x : float) : Binary64.is_finite x = true -> (x - x =? 0)%float = true.
Proof.
  unfold Binary64.is_finite. intros Hfin.
  rewrite eqb_zero_SF, FloatAxioms.sub_spec.
  destruct (Prim2SF x) as [[|]|[|]| |s m e]; try discriminate; try reflexivity.
  unfold SF64sub, SFsub. rewrite Z.sub_diag. reflexivity.
Qed.

Lemma lt_zero_neqb (x : float) : (0 <? x)%float = true -> (x =? 0)%float = false.
Proof.
  rewrite FloatAxioms.ltb_spec, eqb_zero_SF. change (Prim2SF 0%float) with (S754_zero false).
  destruct (Prim2SF x) as [[|]|[|]| |[|] m e]; cbv; congruence.
Qed.

Lemma value_zero (x : float) : (x =? 0)%float = true -> (Binary64.value x == 0)%Q.
Proof.
  rewrite eqb_zero_SF. unfold Binary64.value.
  destruct (Prim2SF x); try discriminate; reflexivity.
Qed.

Lemma finite_valid (x : float) : valid_binary (Prim2SF x) = true.
Proof. apply Prim2SF_valid. Qed.

Lemma sub_eq0_value (x y : float) :
  (x - y =? 0)%float = true -> (Binary64.value x == Binary64.value y)%Q.
Proof.
  rewrite eqb_zero_SF, FloatAxioms.sub_spec. unfold Binary64.value.
  destruct (SF64sub (Prim2SF x) (Prim2SF y)) as [s| | |] eqn:E; try discriminate.
  intros _. exact (@SF.sub_zero_value _ _ _ (finite_valid x) (finite_valid y) E).
Qed.

Section RoundValue.

Local Open Scope Q_scope.


Lemma value_of_Z (q : Z) :
  (0 <= q < 2 ^ 53)%Z -> Binary64.value (Binary64.of_Z q) == inject_Z q.
Proof.
  intros [Hlo Hhi]. destruct q as [|p|p]; try lia.
  - reflexivity.
  - unfold Binary64.value, Binary64.of_Z. rewrite of_uint63_spec, Uint63.of_Z_spec.
    rewrite Z.mod_small.
    + now apply SF.binary_round_exact.
    + split; [lia|]. apply Z.lt_trans with (1 := Hhi). reflexivity.
Qed.

Lemma value_opp (f : float) : Binary64.value (- f)%float == - Binary64.value f.
Proof.
  unfold Binary64.value. rewrite opp_spec.
  destruct (Prim2SF f) as [s|s| |s m e]; cbn [SFopp Binary64.SFvalue]; try reflexivity.
  destruct s; cbn [negb cond_Zopp]; rewrite inject_Z_opp; ring.
Qed.

Lemma Round_Qeq (x y : Q) : x == y -> Exact.Round x = Exact.Round y.
Proof.
  intros E. unfold Exact.Round.
  assert (Eb : Qle_bool 0 x = Qle_bool 0 y).
  { apply eq_true_iff_eq. rewrite !Qle_bool_iff, E. reflexivity. }
  assert (E1 : Qfloor (x + (1 # 2)) = Qfloor (y + (1 # 2))).
  { apply Qfloor_comp. rewrite E. reflexivity. }
  assert (E2 : Qceiling (x - (1 # 2)) = Qceiling (y - (1 # 2))).
  { unfold Qceiling. f_equal. apply Qfloor_comp. rewrite E. reflexivity. }
  now rewrite Eb, E1, E2.
Qed.

Lemma Round_integer (z : Z) : Exact.Round (inject_Z z) = inject_Z z.
Proof.
  unfold Exact.Round. f_equal.
  pose proof (Qfloor_le (inject_Z z + (1 # 2))) as H1.
  pose proof (Qlt_floor (inject_Z z + (1 # 2))) as H2.
  pose proof (Qle_ceiling (inject_Z z - (1 # 2))) as H3.
  pose proof (Qceiling_lt (inject_Z z - (1 # 2))) as H4.
  set (a := Qfloor (inject_Z z + (1 # 2))) in *.
  set (b := Qceiling (inject_Z z - (1 # 2))) in *.
  assert (Ea : a = z).
  { assert (inject_Z a <= inject_Z z + (1 # 2) < inject_Z (a + 1)) by (split; assumption).
    assert (z < a + 1)%Z by (rewrite Zlt_Qlt; lra).
    assert (a < z + 1)%Z by (rewrite Zlt_Qlt, inject_Z_plus; change (inject_Z 1) with 1; lra).
    lia. }
  assert (Eb : b = z).
  { assert (b - 1 < z)%Z by (rewrite Zlt_Qlt; lra).
    assert (z < b + 1)%Z by (rewrite Zlt_Qlt, inject_Z_plus; change (inject_Z 1) with 1; lra).
    lia. }
  destruct (Qle_bool 0 (inject_Z z)); assumption.
Qed.

(** Rounding a positive dyadic fraction [m / 2^k] half up, on integers. *)
Lemma Qfloor_half_up (m : Z) (k : Z) :
  (0 < k)%Z ->
  Qfloor (Qmake m (Z.to_pos (2 ^ k)) + (1 # 2)) = ((m + 2 ^ k / 2) / 2 ^ k)%Z.
Proof.
  intros Hk.
  assert (Hh : (0 < 2 ^ (k - 1))%Z) by (apply Z.pow_pos_nonneg; lia).
  assert (Ed : (2 ^ k = 2 * 2 ^ (k - 1))%Z).
  { rewrite <- Z.pow_succ_r by lia. f_equal. lia. }
  unfold Qplus, Qfloor. cbn [Qnum Qden].
  rewrite Pos2Z.inj_mul, Z2Pos.id by lia.
  rewrite Ed. set (h := (2 ^ (k - 1))%Z) in *.
  replace (2 * h / 2)%Z with h by (apply Z.div_unique with (r := 0%Z); lia).
  replace (m * 2 + 1 * (2 * h))%Z with ((m + h) * 2)%Z by ring.
  replace (2 * h * 2)%Z with ((2 * h) * 2)%Z by ring.
  apply Z.div_mul_cancel_r; lia.
Qed.

Lemma Qpower_2_neg (e : Z) : (e < 0)%Z -> 2 ^ e == 1 # Z.to_pos (2 ^ (- e)).
Proof.
  intros He. replace e with (- - e)%Z at 1 by lia. rewrite Qpower_opp.
  change 2 with (inject_Z 2). rewrite <- Zpower_Qpower by lia.
  assert (Hp : (0 < 2 ^ (- e))%Z) by (apply Z.pow_pos_nonneg; lia).
  destruct (2 ^ (- e))%Z as [|p|p] eqn:E; try lia. reflexivity.
Qed.

(** On binary64 [math.Round] is the exact rounding, half away from zero, of
    the number its argument stands for. *)
Lemma Round_value (x : float) :
  Binary64.is_finite x = true ->
  Binary64.value (Binary64.Round x) == Exact.Round (Binary64.value x).
Proof.
  unfold Binary64.is_finite, Binary64.Round. intros Hfin.
  pose proof (Prim2SF_valid x) as Hv.
  destruct (Prim2SF x) as [s|s| |s m e] eqn:Ex; try discriminate.
  - unfold Binary64.value. rewrite Ex. reflexivity.
  - destruct (0 <=? e)%Z eqn:He.
    + apply Z.leb_le in He.
      assert (Ev : Binary64.value x == inject_Z (cond_Zopp s (Zpos m) * 2 ^ e)).
      { unfold Binary64.value. rewrite Ex. cbn [Binary64.SFvalue].
        rewrite inject_Z_mult, Zpower_Qpower by lia. reflexivity. }
      rewrite (Round_Qeq Ev), Round_integer. exact Ev.
    + apply Z.leb_gt in He. apply SF.valid_mantissa in Hv.
      set (d := (2 ^ (- e))%Z).
      assert (Hd : (2 <= d)%Z).
      { unfold d. change 2%Z with (2 ^ 1)%Z at 1. apply Z.pow_le_mono_r; lia. }
      assert (Hh : (0 <= d / 2 < d)%Z).
      { split; [apply Z.div_pos; lia|apply Z.div_lt; lia]. }
      set (q := ((Zpos m + d / 2) / d)%Z).
      assert (Hq : (0 <= q < 2 ^ 53)%Z).
      { unfold q. split; [apply Z.div_pos; lia|].
        apply Z.div_lt_upper_bound; [lia|]. nia. }
      assert (Eq : Qfloor (Qmake (Zpos m) (Z.to_pos d) + (1 # 2)) = q).
      { unfold d, q. apply Qfloor_half_up. lia. }
      assert (Ev : Binary64.value x == inject_Z (cond_Zopp s (Zpos m)) * (1 # Z.to_pos d)).
      { unfold Binary64.value. rewrite Ex. cbn [Binary64.SFvalue].
        now rewrite Qpower_2_neg by lia. }
      rewrite (Round_Qeq Ev). destruct s; cbn [cond_Zopp].
      * rewrite value_opp, value_of_Z by assumption.
        unfold Exact.Round.
        assert (Hneg : Qle_bool 0 (inject_Z (- Zpos m) * (1 # Z.to_pos d)) = false).
        { apply not_true_is_false. rewrite Qle_bool_iff. unfold Qle, Qmult. simpl. lia. }
        rewrite Hneg. unfold Qceiling.
        assert (E1 : - (inject_Z (- Zpos m) * (1 # Z.to_pos d) - (1 # 2))
                     == Qmake (Zpos m) (Z.to_pos d) + (1 # 2)).
        { rewrite inject_Z_opp. unfold Qeq, Qmult, Qplus, Qminus, Qopp, Qplus. simpl. lia. }
        rewrite E1, Eq. rewrite inject_Z_opp. reflexivity.
      * rewrite value_of_Z by assumption.
        unfold Exact.Round.
        assert (Hpos : Qle_bool 0 (inject_Z (Zpos m) * (1 # Z.to_pos d)) = true).
        { apply Qle_bool_iff. unfold Qle, Qmult. simpl. lia. }
        rewrite Hpos.
        assert (E1 : inject_Z (Zpos m) * (1 # Z.to_pos d) + (1 # 2)
                     == Qmake (Zpos m) (Z.to_pos d) + (1 # 2)).
        { unfold Qeq, Qmult, Qplus. simpl. lia. }
        rewrite E1, Eq. reflexivity.
Qed.

End RoundValue.

End Binary64Facts.

#[export] Instance binary64_laws : Float64Laws float.
Proof.
  split; simpl.
  - reflexivity.
  - intros x. now rewrite Binary64Facts.sub_zero.
  - exact Binary64Facts.sub_diag.
  - exact Binary64Facts.lt_zero_neqb.
  - reflexivity.
  - reflexivity.
  - exact Binary64Facts.value_zero.
  - exact Binary64Facts.sub_eq0_value.
Qed.

#[export] Instance exact_laws : Float64Laws Q.
Proof.
  split; simpl; change (inject_Z 0) with 0%Q.
  - reflexivity.
  - intros x. apply eq_true_iff_eq. rewrite !Qeq_bool_iff. split; intros H; lra.
  - intros x _. apply Qeq_bool_iff. lra.
  - intros x. unfold Exact.ltb. rewrite negb_true_iff. intros H.
    apply not_true_is_false. rewrite Qeq_bool_iff. intros E.
    apply not_true_iff_false in H. apply H. apply Qle_bool_iff. lra.
  - reflexivity.
  - reflexivity.
  - intros x H. now apply Qeq_bool_iff.
  - intros x y H. apply Qeq_bool_iff in H. lra.
Qed.

(** ** The loop of the planner *)

Section PlannerFacts.

Context {F : Type} {ops : Float64Ops F}.
Local Open Scope f64_scope.
Implicit Types (bd : F) (st : LoopState F) (kf : Keyframe F) (s : Segment F).

Lemma step_skip bd st i kf : skips st i kf = true -> step bd st i kf = st.
Proof.
  unfold skips, step. intros H.
  destruct (Nat.eqb i 0 && (Time kf == of_int 0)); [reflexivity|].
  simpl in H. now rewrite H.
Qed.

Lemma step_emit bd st i kf :
  skips st i kf = false ->
  step bd st i kf
  = {| lastTime := Time kf; parts := parts st ++ [segment_of bd st i kf] |}.
Proof.
  unfold skips, step. intros H. apply orb_false_elim in H. destruct H as [H1 H2].
  now rewrite H1, H2.
Qed.

Lemma step_cases bd st i kf :
  (skips st i kf = true /\ step bd st i kf = st) \/
  (skips st i kf = false /\
   step bd st i kf
   = {| lastTime := Time kf; parts := parts st ++ [segment_of bd st i kf] |}).
Proof.
  destruct (skips st i kf) eqn:E; [left|right]; split; auto using step_skip, step_emit.
Qed.

Lemma loop_snoc bd st i kfs kf :
  loop bd st i (kfs ++ [kf]) = step bd (loop bd st i kfs) (i + List.length kfs) kf.
Proof.
  revert st i. induction kfs as [|k kfs IH]; intros st i; simpl.
  - now rewrite Nat.add_0_r.
  - rewrite IH. now rewrite Nat.add_succ_r.
Qed.

(** An invariant of the loop body is an invariant of the loop. *)
Lemma loop_invariant (P : LoopState F -> Prop) bd :
  (forall st i kf, P st -> P (step bd st i kf)) ->
  forall kfs st i, P st -> P (loop bd st i kfs).
Proof.
  intros Hstep. induction kfs as [|kf kfs IH]; intros st i H; simpl; auto.
Qed.

(** The loop only appends to the segments it was entered with. *)
Lemma loop_parts_app bd kfs st i :
  exists l, parts (loop bd st i kfs) = parts st ++ l.
Proof.
  revert st i. induction kfs as [|kf kfs IH]; intros st i; simpl.
  - exists []. now rewrite app_nil_r.
  - destruct (IH (step bd st i kf) (S i)) as [l Hl]. rewrite Hl.
    destruct (step_cases bd st i kf) as [[_ E]|[_ E]]; rewrite E; simpl.
    + now exists l.
    + exists (segment_of bd st i kf :: l). now rewrite <- app_assoc.
Qed.

(** A keyframe list on which the source duration is 0 all along changes
    nothing. *)
Lemma loop_all_skipped bd kfs st i :
  Forall (fun kf => (Time kf - lastTime st == of_int 0) = true) kfs ->
  loop bd st i kfs = st.
Proof.
  revert i. induction kfs as [|kf kfs IH]; intros i H; simpl; [reflexivity|].
  inversion H as [|? ? Hkf Hrest]; subst.
  rewrite step_skip by (unfold skips; rewrite Hkf; apply orb_true_r).
  now apply IH.
Qed.

Lemma segment_of_well_formed bd st i kf :
  skips st i kf = false -> well_formed bd (segment_of bd st i kf).
Proof.
  unfold skips, well_formed. intros H. apply orb_false_elim in H. now destruct H.
Qed.

Lemma emitted_well_formed bpm kfs :
  Forall (well_formed (of_int 60 / bpm)) (emitted bpm kfs).
Proof.
  unfold emitted.
  apply (@loop_invariant (fun st => Forall (well_formed (of_int 60 / bpm)) (parts st))).
  - intros st i kf H.
    destruct (step_cases (of_int 60 / bpm) st i kf) as [[_ E]|[Hs E]]; rewrite E; simpl; auto.
    apply Forall_app. split; auto. constructor; auto using segment_of_well_formed.
  - constructor.
Qed.

Lemma last_cons (A : Type) (a d : A) (l : list A) : last (a :: l) d = last l a.
Proof.
  revert a d. induction l as [|b l IH]; intros a d; [reflexivity|].
  change (last (a :: b :: l) d) with (last (b :: l) d).
  now rewrite !IH.
Qed.

Lemma end_of_cons (start : F) s l : end_of start (s :: l) = end_of (sourceEnd s) l.
Proof. unfold end_of. simpl map. apply last_cons. Qed.

Lemma chained_snoc (start : F) l s :
  chained start l -> sourceStart s = end_of start l -> chained start (l ++ [s]).
Proof.
  revert start. induction l as [|a l IH]; intros start H E.
  - simpl. auto.
  - destruct H as [H1 H2]. split; auto. apply IH; auto.
    rewrite E. apply end_of_cons.
Qed.

Lemma end_of_snoc (start : F) l s : end_of start (l ++ [s]) = sourceEnd s.
Proof. unfold end_of. rewrite map_app. simpl. apply last_last. Qed.

Lemma chained_nth (start : F) l i s1 s2 :
  chained start l ->
  nth_error l i = Some s1 -> nth_error l (S i) = Some s2 ->
  sourceStart s2 = sourceEnd s1.
Proof.
  revert start i. induction l as [|a l IH]; intros start i H H1 H2.
  - destruct i; discriminate.
  - destruct H as [_ H]. destruct i as [|i]; simpl in H1, H2.
    + injection H1 as ->. destruct l as [|b l]; [discriminate|].
      injection H2 as ->. now destruct H.
    + eapply IH; eauto.
Qed.

(** The segments are laid end to end from 0, and [lastTime] is where they end. *)
Lemma loop_chained bd kfs :
  let st := loop bd init 0 kfs in
  chained (of_int 0) (parts st) /\ end_of (of_int 0) (parts st) = lastTime st.
Proof.
  apply (@loop_invariant
           (fun st => chained (of_int 0) (parts st) /\ end_of (of_int 0) (parts st) = lastTime st)).
  - intros st i kf [H1 H2].
    destruct (step_cases bd st i kf) as [[_ E]|[_ E]]; rewrite E; simpl; auto.
    split.
    + apply chained_snoc; auto.
    + apply end_of_snoc.
  - split; [exact I|reflexivity].
Qed.

Lemma source_length_snoc l s :
  (source_length (l ++ [s]) == source_length l + (value (sourceEnd s) - value (sourceStart s)))%Q.
Proof.
  unfold source_length. induction l as [|a l IH]; simpl.
  - lra.
  - rewrite IH. lra.
Qed.

End PlannerFacts.

(** ** The planner: what holds in every float64 arithmetic *)

Section PlannerClaims.

Context {F : Type} {ops : Float64Ops F}.
Local Open Scope f64_scope.
Implicit Types (bd bpm : F) (st : LoopState F) (kf : Keyframe F) (s : Segment F).

(** C6. [ffmpegAdjustSpeed] returns the error "no segments to process" exactly
    when its loop has emitted no segment; when the loop has emitted at least one
    segment the result is the plan, and the error is the only one the planner
    itself produces. *)
Theorem no_segments_error bpm (kfs : list (Keyframe F)) :
  (ffmpegAdjustSpeed bpm kfs = inl "no segments to process"%string <-> emitted bpm kfs = []) /\
  (emitted bpm kfs <> [] -> ffmpegAdjustSpeed bpm kfs = inr (emitted bpm kfs)) /\
  (forall e, ffmpegAdjustSpeed bpm kfs = inl e -> e = "no segments to process"%string).
Proof.
  unfold ffmpegAdjustSpeed.
  destruct (emitted bpm kfs) as [|s l] eqn:E; simpl.
  - repeat split; try reflexivity; try congruence.
  - repeat split; try discriminate; try reflexivity.
Qed.

Context {laws : Float64Laws F}.

Lemma adjusted_nonzero bd (l t : F) :
  (adjustedSegmentDuration bd l t == of_int 0) = false.
Proof.
  unfold adjustedSegmentDuration.
  destruct (nearestBeatTime bd t - l == of_int 0) eqn:E; [apply c0_01_nonzero|exact E].
Qed.

(** C3, as the code has it.  A candidate segment whose source duration is zero
    is dropped, and [lastTime] stays as it was; a candidate whose target
    duration is zero is not dropped: it is emitted, with 0.01 for divisor.  No
    emitted segment has a zero source duration, and the divisor of its speed
    factor is never zero. *)
Theorem zero_durations bpm (kfs : list (Keyframe F)) :
  (forall bd st i kf,
      (Time kf - lastTime st == of_int 0) = true -> step bd st i kf = st) /\
  (forall bd st i kf,
      skips st i kf = false ->
      (nearestBeatTime bd (Time kf) - lastTime st == of_int 0) = true ->
      step bd st i kf
      = {| lastTime := Time kf;
           parts := parts st ++ [ {| sourceStart := lastTime st;
                                      sourceEnd := Time kf;
                                      speedFactor := (Time kf - lastTime st) / c0_01;
                                      label := i |} ] |}) /\
  Forall (fun s =>
            let divisor := adjustedSegmentDuration (of_int 60 / bpm) (sourceStart s) (sourceEnd s) in
            (sourceEnd s - sourceStart s == of_int 0) = false /\
            (divisor == of_int 0) = false /\
            speedFactor s = (sourceEnd s - sourceStart s) / divisor)
         (emitted bpm kfs).
Proof.
  split; [|split].
  - intros bd st i kf H. apply step_skip. unfold skips. rewrite H. apply orb_true_r.
  - intros bd st i kf Hs Hz. rewrite step_emit by assumption.
    unfold segment_of, adjustedSegmentDuration. now rewrite Hz.
  - eapply Forall_impl; [|apply emitted_well_formed].
    intros s [H1 H2]. cbv zeta. auto using adjusted_nonzero.
Qed.

(** C4. The emitted segments partition the source timeline from 0 to the time
    of the last keyframe: the first one starts at 0, each next one starts where
    the one before it ended, and the source durations add up to the time of the
    last keyframe minus 0. *)
Theorem source_timeline_partitioned bpm (kfs : list (Keyframe F)) :
  let plan := emitted bpm kfs in
  (forall s, nth_error plan 0 = Some s -> sourceStart s = of_int 0) /\
  (forall i s1 s2,
      nth_error plan i = Some s1 -> nth_error plan (S i) = Some s2 ->
      sourceStart s2 = sourceEnd s1) /\
  (source_length plan == value (last_time kfs) - 0)%Q.
Proof.
  cbv zeta. unfold emitted. set (bd := of_int 60 / bpm).
  destruct (loop_chained bd kfs) as [Hc _]. split; [|split].
  - intros s H. destruct (parts (loop bd init 0 kfs)); [discriminate|].
    injection H as ->. now destruct Hc.
  - intros i s1 s2. now apply chained_nth with (start := of_int 0).
  - assert (H : (source_length (parts (loop bd init 0 kfs))
                 == value (lastTime (loop bd init 0 kfs)))%Q /\
                (value (lastTime (loop bd init 0 kfs)) == value (last_time kfs))%Q).
    { induction kfs as [|kf kfs IH] using rev_ind.
      - simpl. unfold last_time. simpl. rewrite value_of_zero. split; reflexivity.
      - rewrite loop_snoc. simpl Nat.add.
        assert (El : last_time (kfs ++ [kf]) = Time kf).
        { unfold last_time. rewrite map_app. simpl. apply last_last. }
        rewrite El. clear Hc.
        destruct (loop_chained bd kfs) as [Hc' _]. specialize (IH Hc'). destruct IH as [IH1 IH2].
        destruct (step_cases bd (loop bd init 0 kfs) (List.length kfs) kf) as [[Hs E]|[Hs E]];
          rewrite E; simpl.
        + split; [assumption|].
          unfold skips in Hs. apply orb_true_iff in Hs. destruct Hs as [Hs|Hs].
          * apply andb_true_iff in Hs. destruct Hs as [Hi Hz].
            apply Nat.eqb_eq in Hi. destruct kfs; [|discriminate].
            simpl. rewrite value_of_zero. symmetry. now apply value_zero.
          * symmetry. now apply sub_eq0_value.
        + split; [|reflexivity].
          rewrite source_length_snoc. simpl. rewrite IH1. ring. }
    destruct H as [H1 H2]. rewrite H1, H2. ring.
Qed.

(** C9. The first segment starts at 0, whatever the first keyframe: when the
    first keyframe lies after 0, the first emitted segment runs from 0 to that
    keyframe; and a single keyframe at a nonzero time gives a plan of exactly
    that one segment, not an error. *)
Theorem first_segment_from_zero bpm (k : Keyframe F) (kfs : list (Keyframe F)) :
  let first :=
    {| sourceStart := of_int 0;
       sourceEnd := Time k;
       speedFactor := (Time k - of_int 0)
                      / adjustedSegmentDuration (of_int 60 / bpm) (of_int 0) (Time k);
       label := 0 |} in
  ((of_int 0 < Time k) = true -> exists rest, emitted bpm (k :: kfs) = first :: rest) /\
  ((Time k == of_int 0) = false ->
   emitted bpm [k] = [first] /\ ffmpegAdjustSpeed bpm [k] = inr [first]).
Proof.
  cbv zeta.
  assert (E : (Time k == of_int 0) = false ->
              step (of_int 60 / bpm) init 0 k
              = {| lastTime := Time k; parts := [segment_of (of_int 60 / bpm) init 0 k] |}).
  { intros H. rewrite step_emit; [reflexivity|].
    unfold skips. simpl. now rewrite sub_zero_eqb, H. }
  split.
  - intros H. apply lt_zero_neqb in H. unfold emitted. simpl loop. rewrite (E H).
    destruct (loop_parts_app (of_int 60 / bpm) kfs
                {| lastTime := Time k; parts := [segment_of (of_int 60 / bpm) init 0 k] |} 1)
      as [l Hl].
    rewrite Hl. simpl. now exists l.
  - intros H.
    assert (Em : emitted bpm [k] = [segment_of (of_int 60 / bpm) init 0 k]).
    { unfold emitted. simpl loop. now rewrite (E H). }
    split; [exact Em|]. unfold ffmpegAdjustSpeed. now rewrite Em.
Qed.

(** C7, as the code has it.  When all keyframes carry the time [t], every
    keyframe after the first is skipped for its zero source duration.  The plan
    ends empty, and the planner fails with "no segments to process", when [t]
    is 0; otherwise the first keyframe has given the segment from 0 to [t], and
    the plan is that one segment. *)
Theorem identical_times bpm (t : F) (k : Keyframe F) (kfs : list (Keyframe F)) :
  is_finite t = true ->
  Forall (fun kf => Time kf = t) (k :: kfs) ->
  let bd := of_int 60 / bpm in
  let first :=
    {| sourceStart := of_int 0;
       sourceEnd := t;
       speedFactor := (t - of_int 0) / adjustedSegmentDuration bd (of_int 0) t;
       label := 0 |} in
  loop bd (step bd init 0 k) 1 kfs = step bd init 0 k /\
  ((t == of_int 0) = true ->
   emitted bpm (k :: kfs) = [] /\
   ffmpegAdjustSpeed bpm (k :: kfs) = inl "no segments to process"%string) /\
  ((t == of_int 0) = false ->
   emitted bpm (k :: kfs) = [first] /\
   ffmpegAdjustSpeed bpm (k :: kfs) = inr [first]).
Proof.
  intros Hfin Hall. cbv zeta. set (bd := of_int 60 / bpm).
  inversion Hall as [|? ? Hk Hrest]; subst.
  assert (Hstep : ((Time k == of_int 0) = true /\ step bd init 0 k = init) \/
                  ((Time k == of_int 0) = false /\
                   step bd init 0 k
                   = {| lastTime := Time k; parts := [segment_of bd init 0 k] |})).
  { destruct (Time k == of_int 0) eqn:Ez; [left|right]; split; auto.
    - apply step_skip. unfold skips. simpl. now rewrite Ez.
    - rewrite step_emit; [reflexivity|]. unfold skips. simpl. now rewrite sub_zero_eqb, Ez. }
  assert (Hloop : loop bd (step bd init 0 k) 1 kfs = step bd init 0 k).
  { apply loop_all_skipped. eapply Forall_impl; [|exact Hrest].
    intros kf Hkf. simpl in Hkf. rewrite Hkf.
    destruct Hstep as [[Ez ->]|[Ez ->]]; simpl.
    - now rewrite sub_zero_eqb.
    - now apply sub_diag_eqb. }
  split; [exact Hloop|].
  unfold ffmpegAdjustSpeed, emitted. fold bd. simpl loop. rewrite Hloop.
  destruct Hstep as [[Ez ->]|[Ez ->]]; simpl; split; intros H; try congruence; auto.
Qed.

End PlannerClaims.

(** ** The tempo estimator *)

Section EstimatorClaims.

Context {F : Type} {ops : Float64Ops F}.
Local Open Scope f64_scope.

Lemma totalInterval_fold (acc : F) (prev : Keyframe F) (rest : list (Keyframe F)) :
  totalInterval acc prev rest = fold_left fadd (intervals prev rest) acc.
Proof.
  revert acc prev. induction rest as [|kf rest IH]; intros acc prev; simpl; [reflexivity|].
  apply IH.
Qed.

Lemma closest_cons (ie d m : F) (ms : list F) :
  closest ie d (m :: ms) = if plausible (ie * m) then ie * m else closest ie d ms.
Proof. reflexivity. Qed.

Lemma closest_find (ie d : F) (ms : list F) :
  closest ie d ms
  = match find (fun m => plausible (ie * m)) ms with Some m => ie * m | None => d end.
Proof.
  induction ms as [|m ms IH]; simpl; [reflexivity|].
  fold (plausible (ie * m)). destruct (plausible (ie * m)); [reflexivity|exact IH].
Qed.

Lemma estimateBPM_closest (k0 k1 : Keyframe F) (rest : list (Keyframe F)) :
  estimateBPM (k0 :: k1 :: rest)
  = closest (initial_estimate (k0 :: k1 :: rest)) (initial_estimate (k0 :: k1 :: rest))
            [of_int 1; of_int 2; of_int 4].
Proof.
  unfold estimateBPM, initial_estimate. now rewrite totalInterval_fold.
Qed.

(** C8. With at least two keyframes, [estimateBPM] computes [initialEstimate]
    as 60 over the mean of the consecutive intervals, tries the multipliers 1,
    2, 4 in this order, and returns [initialEstimate * m] for the first [m]
    whose product lies in [50, 200]; when no multiplier qualifies it returns
    [initialEstimate] unmultiplied.  So the result lies in [50, 200] whenever
    one of the three products does. *)
Theorem estimate_first_plausible_multiplier (k0 k1 : Keyframe F) (rest : list (Keyframe F)) :
  let kfs := k0 :: k1 :: rest in
  let ie := initial_estimate kfs in
  estimateBPM kfs = spec_estimate kfs /\
  (plausible (ie * of_int 1) = true -> estimateBPM kfs = ie * of_int 1) /\
  (plausible (ie * of_int 1) = false -> plausible (ie * of_int 2) = true ->
   estimateBPM kfs = ie * of_int 2) /\
  (plausible (ie * of_int 1) = false -> plausible (ie * of_int 2) = false ->
   plausible (ie * of_int 4) = true ->
   estimateBPM kfs = ie * of_int 4) /\
  (plausible (ie * of_int 1) = false -> plausible (ie * of_int 2) = false ->
   plausible (ie * of_int 4) = false ->
   estimateBPM kfs = ie) /\
  ((exists m, In m [of_int 1; of_int 2; of_int 4] /\ plausible (ie * m) = true) ->
   plausible (estimateBPM kfs) = true).
Proof.
  cbv zeta. rewrite estimateBPM_closest.
  set (ie := initial_estimate (k0 :: k1 :: rest)).
  split.
  - unfold spec_estimate. fold ie. apply closest_find.
  - simpl closest. fold (plausible (ie * of_int 1)) (plausible (ie * of_int 2))
                       (plausible (ie * of_int 4)).
    destruct (plausible (ie * of_int 1)) eqn:E1;
      destruct (plausible (ie * of_int 2)) eqn:E2;
      destruct (plausible (ie * of_int 4)) eqn:E4;
      repeat split; intros; try congruence;
      match goal with
      | H : exists m, _ |- _ =>
          destruct H as [m [[<-|[<-|[<-|[]]]] Hm]]; congruence
      end.
Qed.

End EstimatorClaims.

(** ** Exact arithmetic *)

Module ExactFacts.

Local Open Scope Q_scope.

Lemma Qeq_bool_false (x y : Q) : Qeq_bool x y = false -> ~ x == y.
Proof. intros H E. apply Qeq_bool_iff in E. congruence. Qed.

Lemma Qsquare_pos (b : Q) : ~ b == 0 -> 0 < b * b.
Proof. intros H. destruct (Q_dec b 0) as [[Hlt|Hgt]|He]; [nra|nra|contradiction]. Qed.

Lemma Qdiv_nonzero (a b : Q) : ~ a == 0 -> ~ b == 0 -> ~ a / b == 0.
Proof.
  intros Ha Hb H. apply Ha.
  assert (E : a == a / b * b) by (field; exact Hb).
  rewrite E, H. ring.
Qed.

Lemma Qdiv_pos_iff (a b : Q) : ~ b == 0 -> (0 < a / b <-> 0 < a * b).
Proof.
  intros Hb.
  assert (E : a * b == a / b * (b * b)) by (field; exact Hb).
  pose proof (@Qsquare_pos b Hb) as Hsq.
  rewrite E. split; intros H.
  - nra.
  - destruct (Qlt_le_dec 0 (a / b)) as [Hp|Hn]; [exact Hp|]. nra.
Qed.

Lemma Qabs_cases (a : Q) : (0 <= a /\ Qabs a == a) \/ (a <= 0 /\ Qabs a == - a).
Proof.
  destruct (Qlt_le_dec a 0) as [H|H].
  - right. split; [lra|]. apply Qabs_neg. lra.
  - left. split; [lra|]. now apply Qabs_pos.
Qed.

Ltac split_Qabs a :=
  let H := fresh "Habs" in
  let E := fresh "Eabs" in
  destruct (Qabs_cases a) as [[H E]|[H E]].

(** [math.Round] stays within a half of its argument, and at a half it is on
    the side away from zero. *)
Lemma Round_near (y : Q) :
  (0 <= y -> - (1 # 2) < Exact.Round y - y <= 1 # 2) /\
  (y < 0 -> - (1 # 2) <= Exact.Round y - y < 1 # 2).
Proof.
  unfold Exact.Round. split; intros H.
  - apply Qle_bool_iff in H. rewrite H.
    pose proof (Qfloor_le (y + (1 # 2))). pose proof (Qlt_floor (y + (1 # 2))).
    rewrite inject_Z_plus in *. change (inject_Z 1) with 1 in *. lra.
  - assert (Hb : Qle_bool 0 y = false).
    { apply not_true_is_false. rewrite Qle_bool_iff. lra. }
    rewrite Hb.
    pose proof (Qle_ceiling (y - (1 # 2))) as H1. pose proof (Qceiling_lt (y - (1 # 2))) as H2.
    set (c := Qceiling (y - (1 # 2))) in *.
    assert (E : inject_Z (c - 1) == inject_Z c - 1).
    { unfold Z.sub. rewrite inject_Z_plus. reflexivity. }
    rewrite E in H2. lra.
Qed.

Lemma roundToBeat_exact (x : Q) : roundToBeat x = Exact.Round (x * 100) / 100.
Proof. reflexivity. Qed.

Lemma roundToBeat_rounds (x : Q) : rounds_to_hundredth x (roundToBeat x).
Proof.
  rewrite roundToBeat_exact. unfold rounds_to_hundredth.
  pose proof (Round_near (x * 100)) as [Hpos Hneg].
  set (R := Exact.Round (x * 100)) in *.
  assert (ER : R / 100 * 100 == R) by field.
  set (r := R / 100) in *.
  split; [|split].
  - unfold r, R, Exact.Round. eexists. reflexivity.
  - split_Qabs (r - x); destruct (Qlt_le_dec x 0); lra.
  - intros Htie.
    split_Qabs (r - x); split_Qabs x; split_Qabs r; destruct (Qlt_le_dec x 0); lra.
Qed.

Lemma no_integer_inside (z k : Z) :
  inject_Z k < inject_Z z -> inject_Z z < inject_Z (k + 1) -> False.
Proof. rewrite <- !Zlt_Qlt. lia. Qed.

Lemma rounds_to_hundredth_unique (x r r' : Q) :
  rounds_to_hundredth x r -> rounds_to_hundredth x r' -> r' == r.
Proof.
  intros [[z Hz] [Hn Ht]] [[z' Hz'] [Hn' Ht']].
  assert (Ek : inject_Z (z' - z) == (r' - r) * 100).
  { unfold Z.sub. rewrite inject_Z_plus, inject_Z_opp, Hz, Hz'. field. }
  assert (Hk : (-1 <= z' - z <= 1)%Z).
  { split; rewrite Zle_Qle, Ek;
      [change (inject_Z (-1)) with (-1)|change (inject_Z 1) with 1];
      split_Qabs (r - x); split_Qabs (r' - x); lra. }
  assert (Hcase : (z' - z = -1 \/ z' - z = 0 \/ z' - z = 1)%Z) by lia.
  assert (Ez : inject_Z z == r * 100) by (rewrite Hz; field).
  destruct Hcase as [E|[E|E]]; rewrite E in Ek.
  - exfalso. change (inject_Z (-1)) with (-1) in Ek.
    assert (T : Qabs (r - x) == 1 # 200)
      by (split_Qabs (r - x); split_Qabs (r' - x); lra).
    assert (T' : Qabs (r' - x) == 1 # 200)
      by (split_Qabs (r - x); split_Qabs (r' - x); lra).
    specialize (Ht T). specialize (Ht' T').
    apply (@no_integer_inside z 0); rewrite Ez;
      [change (inject_Z 0) with 0|change (inject_Z (0 + 1)) with 1];
      split_Qabs (r - x); split_Qabs (r' - x); split_Qabs x; split_Qabs r; split_Qabs r'; lra.
  - change (inject_Z 0) with 0 in Ek. lra.
  - exfalso. change (inject_Z 1) with 1 in Ek.
    assert (T : Qabs (r - x) == 1 # 200)
      by (split_Qabs (r - x); split_Qabs (r' - x); lra).
    assert (T' : Qabs (r' - x) == 1 # 200)
      by (split_Qabs (r - x); split_Qabs (r' - x); lra).
    specialize (Ht T). specialize (Ht' T').
    apply (@no_integer_inside z (-1)); rewrite Ez;
      [change (inject_Z (-1)) with (-1)|change (inject_Z (-1 + 1)) with 0];
      split_Qabs (r - x); split_Qabs (r' - x); split_Qabs x; split_Qabs r; split_Qabs r'; lra.
Qed.

Lemma plausible_Qeq (x y : Q) : x == y -> plausible x = plausible y.
Proof.
  intros E. unfold plausible. simpl.
  assert (E1 : Qle_bool (inject_Z 50) x = Qle_bool (inject_Z 50) y).
  { apply eq_true_iff_eq. rewrite !Qle_bool_iff, E. reflexivity. }
  assert (E2 : Qle_bool x (inject_Z 200) = Qle_bool y (inject_Z 200)).
  { apply eq_true_iff_eq. rewrite !Qle_bool_iff, E. reflexivity. }
  now rewrite E1, E2.
Qed.

Lemma closest_Qeq (ie ie' d d' : Q) (ms : list Q) :
  ie == ie' -> d == d' -> closest ie d ms == closest ie' d' ms.
Proof.
  intros Ei Ed. induction ms as [|m ms IH]; [exact Ed|].
  rewrite !closest_cons.
  assert (Em : (ie * m)%f64 == (ie' * m)%f64) by (simpl; rewrite Ei; reflexivity).
  rewrite (plausible_Qeq Em).
  destruct (plausible (ie' * m)%f64); [exact Em|exact IH].
Qed.

(** The intervals telescope: their sum is the last time minus the first. *)
Lemma totalInterval_telescopes (acc : Q) (k0 : Keyframe Q) (rest : list (Keyframe Q)) :
  totalInterval acc k0 rest == acc + (last (map (@Time Q) rest) (Time k0) - Time k0).
Proof.
  revert acc k0. induction rest as [|kf rest IH]; intros acc k0.
  - simpl. ring.
  - simpl totalInterval. rewrite IH. simpl map. rewrite last_cons. simpl. ring.
Qed.

Lemma estimateBPM_from_ends (k0 k1 : Keyframe Q) (rest : list (Keyframe Q)) :
  let kfs := k0 :: k1 :: rest in
  estimateBPM kfs == estimate_from (first_time kfs) (last_time kfs) (List.length kfs).
Proof.
  cbv zeta. unfold estimateBPM, estimate_from, first_time, last_time.
  simpl hd. simpl map. rewrite last_cons.
  pose proof (totalInterval_telescopes (of_int 0) k0 (k1 :: rest)) as T.
  simpl map in T.
  set (total := totalInterval (of_int 0) k0 (k1 :: rest)) in *.
  set (lst := last (Time k1 :: map (@Time Q) rest) (Time k0)) in *.
  assert (E : (of_int 60 / (total / of_int (Z.of_nat (List.length (k0 :: k1 :: rest)) - 1)))%f64
              == 60 / ((lst - Time k0) / inject_Z (Z.of_nat (List.length (k0 :: k1 :: rest)) - 1))).
  { simpl fdiv. simpl of_int. rewrite T. change (inject_Z 0) with 0. change (inject_Z 60) with 60.
    assert (E0 : 0 + (lst - Time k0) == lst - Time k0) by ring.
    now rewrite E0. }
  apply closest_Qeq; exact E.
Qed.

End ExactFacts.

(** ** Claims on exact arithmetic

    Division on [Q] is total, with [x / 0 == 0].  For a positive bpm no
    division of the planner is by zero ([beatDuration] and 100 are positive,
    and the divisor of the speed factor is shown nonzero), so the exact model
    computes what real arithmetic computes; the theorems on it are stated for
    [0 < bpm]. *)

Section ExactClaims.

Local Open Scope Q_scope.
Import ExactFacts.

(** C1, as the code has it.  For a positive bpm, every emitted segment has a
    source duration and a (clamped) target duration that are both nonzero; its
    speed factor is their quotient, so it is defined and nonzero.  It is
    strictly positive exactly when the two durations have the same sign, which
    the code does not ensure: a nearest beat before [lastTime] gives a negative
    speed factor. *)
Theorem speed_factor_nonzero_quotient
  (bpm : Q) (kfs : list (Keyframe Q)) (s : Segment Q) :
  0 < bpm -> In s (emitted bpm kfs) ->
  let source := sourceEnd s - sourceStart s in
  let target := adjustedSegmentDuration (60 / bpm) (sourceStart s) (sourceEnd s) in
  (source == 0 -> False) /\
  (target == 0 -> False) /\
  speedFactor s == source / target /\
  (speedFactor s == 0 -> False) /\
  (0 < speedFactor s <-> 0 < source * target).
Proof.
  intros _ Hin. cbv zeta.
  pose proof (emitted_well_formed bpm kfs) as Hwf.
  rewrite Forall_forall in Hwf. destruct (Hwf s Hin) as [Hsrc Hsf].
  pose proof (adjusted_nonzero (60 / bpm) (sourceStart s) (sourceEnd s)) as Htgt.
  apply Qeq_bool_false in Hsrc, Htgt.
  change (of_int 0) with 0 in Hsrc, Htgt.
  change (of_int 60 / bpm)%f64 with (60 / bpm) in Hsf.
  change (sourceEnd s - sourceStart s)%f64 with (sourceEnd s - sourceStart s) in Hsrc, Hsf.
  set (source := sourceEnd s - sourceStart s) in *.
  set (target := adjustedSegmentDuration (60 / bpm) (sourceStart s) (sourceEnd s)) in *.
  change (speedFactor s = source / target) in Hsf.
  rewrite Hsf.
  split; [exact Hsrc|]. split; [exact Htgt|]. split; [reflexivity|].
  split; [now apply Qdiv_nonzero|now apply Qdiv_pos_iff].
Qed.

(** C5, in exact arithmetic.  The planner's nearest beat is [roundToBeat
    (t / beatDuration) * beatDuration] with [roundToBeat x = Round (x * 100) /
    100], and [roundToBeat] rounds the beat index to the nearest 0.01, half
    away from zero: its result is the one multiple of 0.01 that is nearest to
    the index, the one of larger magnitude when two are equally near.

    On float64 the code computes the same formula, each operation rounded.
    Its [Round] is this same rounding half away from zero, on the number a
    finite float stands for; the product by 100 and the quotient by 100 are
    where float64 leaves the exact result. *)
Theorem nearest_beat_rounds_to_hundredth (bpm t : Q) :
  0 < bpm ->
  let beatDuration := 60 / bpm in
  nearestBeatTime beatDuration t = roundToBeat (t / beatDuration) * beatDuration /\
  roundToBeat (t / beatDuration) = Exact.Round (t / beatDuration * 100) / 100 /\
  rounds_to_hundredth (t / beatDuration) (roundToBeat (t / beatDuration)) /\
  (forall r, rounds_to_hundredth (t / beatDuration) r -> r == roundToBeat (t / beatDuration)) /\
  (forall x : float,
      is_finite x = true -> value (Round x) == Exact.Round (value x)) /\
  (forall bd u : float,
      nearestBeatTime bd u = (Binary64.Round (u / bd * 100) / 100 * bd)%float) /\
  (forall bd u : float,
      is_finite (u / bd * 100)%float = true ->
      value (Binary64.Round (u / bd * 100)%float)
      == Exact.Round (value (u / bd * 100)%float)).
Proof.
  intros _. cbv zeta. split; [reflexivity|]. split; [reflexivity|].
  split; [apply roundToBeat_rounds|]. split.
  { intros r Hr. exact (rounds_to_hundredth_unique (roundToBeat_rounds _) Hr). }
  split; [exact Binary64Facts.Round_value|].
  split; [reflexivity|].
  intros bd u Hfin. exact (Binary64Facts.Round_value _ Hfin).
Qed.

(** C10, in exact arithmetic.  With at least two keyframes the intervals
    telescope, [avgInterval = (last - first) / (n - 1)], and the estimate is a
    function of the first time, the last time and the number of keyframes: two
    keyframe lists that agree on the three get the same estimate. *)
Theorem estimate_depends_on_ends (kfs1 kfs2 : list (Keyframe Q)) :
  (2 <= List.length kfs1)%nat ->
  List.length kfs2 = List.length kfs1 ->
  first_time kfs2 == first_time kfs1 ->
  last_time kfs2 == last_time kfs1 ->
  estimateBPM kfs1
  == estimate_from (first_time kfs1) (last_time kfs1) (List.length kfs1) /\
  estimateBPM kfs2 == estimateBPM kfs1.
Proof.
  intros Hlen Elen Ef El.
  destruct kfs1 as [|a1 [|b1 r1]]; simpl in Hlen; try lia.
  destruct kfs2 as [|a2 [|b2 r2]]; try discriminate.
  split; [apply estimateBPM_from_ends|].
  rewrite (estimateBPM_from_ends a1 b1 r1), (estimateBPM_from_ends a2 b2 r2).
  rewrite Elen. unfold estimate_from.
  apply closest_Qeq; rewrite Ef, El; reflexivity.
Qed.

End ExactClaims.

(** ** Scenarios, on binary64 and on exact arithmetic *)

Section Scenarios.

Local Open Scope float_scope.

(** [math.Round] on binary64: halves go away from zero, the largest float
    below one half goes to 0, and a negative fraction rounds to -0. *)
Example Round_examples :
  map Binary64.Round [0.5; -0.5; 2.5; 0.49999999999999994; 110.00000000000001; 1e300]
  = [1; -1; 3; 0; 110; 1e300] /\
  Prim2SF (Binary64.Round (-0.2)) = S754_zero true.
Proof. split; vm_compute; reflexivity. Qed.

(** The two planners of the repository snap 0.5 s at 60 bpm differently: to
    0.5 in [main.go], to 1 in the older one. *)
Example nearest_beat_variants :
  nearestBeatTime 1 0.5 = 0.5 /\ WholeBeat.nearestBeatTime 1 0.5 = 1.
Proof. split; vm_compute; reflexivity. Qed.

(** Scenario A: keyframes on the grid keep their speed. *)
Example scenario_A :
  ffmpegAdjustSpeed 60 (map kf64 [0; 1; 2; 3])
  = inr [ {| sourceStart := 0; sourceEnd := 1; speedFactor := 1; label := 1 |};
          {| sourceStart := 1; sourceEnd := 2; speedFactor := 1; label := 2 |};
          {| sourceStart := 2; sourceEnd := 3; speedFactor := 1; label := 3 |} ].
Proof. vm_compute. reflexivity. Qed.

(** An extreme tempo: at the smallest positive float64 the beat duration
    overflows to +Inf, the nearest beat is 0 * Inf, and the speed factor is
    NaN. *)
Example speed_factor_nan :
  (0 <? 5e-324) = true /\
  60 / 5e-324 = infinity /\
  map (fun s => Binary64.is_finite (speedFactor s)) (emitted 5e-324 (map kf64 [1])) = [false].
Proof. repeat split; vm_compute; reflexivity. Qed.

(** C1 fails as stated.  At 60 bpm the keyframes 0.50390625 and 0.504150390625
    both have 0.5 for nearest beat.  The first segment ends at 0.50390625, so
    the second has a target duration of 0.5 - 0.50390625 = -0.00390625 for a
    source duration of 0.000244140625: its speed factor is -0.0625.  All the
    numbers are binary fractions, and the two arithmetics agree. *)
Lemma negative_speed_factor :
  (0 <? 60) = true /\
  emitted 60 (map kf64 [0.50390625; 0.504150390625])
  = [ {| sourceStart := 0; sourceEnd := 0.50390625; speedFactor := 1.0078125; label := 0 |};
      {| sourceStart := 0.50390625; sourceEnd := 0.504150390625;
         speedFactor := -0.0625; label := 1 |} ] /\
  (0 <? -0.0625) = false /\
  map readQ (emitted 60%Q (map kfQ [129 # 256; 2065 # 4096]%Q))
  = [ (0, 129 # 256, 129 # 128, 0%nat); (129 # 256, 2065 # 4096, - 1 # 16, 1%nat) ]%Q.
Proof. repeat split; vm_compute; reflexivity. Qed.

(** C2 fails as stated.  With the two-decimal rounding of the beat index the
    nearest beat of 0.5 is 0.5, not 0: the first target duration is 0.5, it is
    not clamped, and the speed factor is 1, not 50.  The nearest beat of 1.1 is
    1.1, not 1: the second target duration is 1.1 - 0.5, and the speed factor is
    1, not 0.6. *)
Lemma scenario_B_not_as_told :
  nearestBeatTime (60 / 60) 0.5 = 0.5 /\
  (nearestBeatTime (60 / 60) 0.5 - 0 =? 0) = false /\
  nearestBeatTime (60 / 60) 1.1 = 1.1 /\
  map (@speedFactor float) (emitted 60 (map kf64 [0; 0.5; 1.1])) = [1; 1] /\
  (1 =? 50) = false /\
  (1 =? 0.6) = false.
Proof. repeat split; vm_compute; reflexivity. Qed.

(** C2, as the code has it.  For the keyframes 0, 0.5 and 1.1 at 60 bpm the
    planner emits exactly two segments, with sources (0, 0.5) and (0.5, 1.1);
    both nearest beats are the keyframe times themselves, no target duration
    is zero, and both speed factors are 1.  This is so on binary64 and in
    exact arithmetic. *)
Theorem scenario_B_plan :
  ffmpegAdjustSpeed 60 (map kf64 [0; 0.5; 1.1])
  = inr [ {| sourceStart := 0; sourceEnd := 0.5; speedFactor := 1; label := 1 |};
          {| sourceStart := 0.5; sourceEnd := 1.1; speedFactor := 1; label := 2 |} ] /\
  map readQ (emitted 60%Q (map kfQ [0; 1 # 2; 11 # 10]%Q))
  = [ (0, 1 # 2, 1, 1%nat); (1 # 2, 11 # 10, 1, 2%nat) ]%Q.
Proof. split; vm_compute; reflexivity. Qed.

(** C3 fails as stated.  At 60 bpm the keyframe 0.0009765625 has 0 for
    nearest beat, so the target duration of its segment is zero; the segment
    is emitted all the same, with 0.01 for divisor. *)
Lemma zero_target_is_emitted :
  (nearestBeatTime (60 / 60) 0.0009765625 - 0 =? 0) = true /\
  emitted 60 (map kf64 [0.0009765625])
  = [ {| sourceStart := 0; sourceEnd := 0.0009765625;
         speedFactor := 0.0009765625 / 0.01; label := 0 |} ] /\
  0.0009765625 / 0.01 = 0.09765625.
Proof. repeat split; vm_compute; reflexivity. Qed.

(** C5 fails on float64.  At 60 bpm the beat index of the keyframe 2.675 is
    the float 2.675, which stands for a number just below 2.675.  Its product
    by 100 is rounded to 267.5, a tie that [Round] takes to 268, and the
    nearest beat is the float 2.68.  It is more than 0.005 away from the
    index, while the float 2.67 is less than 0.005 away: the result is not the
    index rounded to the nearest 0.01.  In exact arithmetic the same index is
    rounded to 2.67. *)
Lemma round_to_beat_not_nearest :
  (0 <? 60) = true /\
  2.675 / (60 / 60) = 2.675 /\
  2.675 * 100 = 267.5 /\
  Binary64.Round 267.5 = 268 /\
  268 / 100 = 2.68 /\
  roundToBeat (2.675 / (60 / 60)) = 2.68 /\
  nearestBeatTime (60 / 60) 2.675 = 2.68 /\
  Qlt (value 2.675) (2675 # 1000) /\
  Qlt (1 # 200) (Qabs (value 2.68 - value 2.675)) /\
  Qlt (Qabs (value 2.67 - value 2.675)) (1 # 200) /\
  Qred (roundToBeat (value 2.675)) = (267 # 100)%Q /\
  (rounds_to_hundredth (value 2.675) (value (roundToBeat 2.675)) -> False).
Proof.
  repeat (split; [vm_compute; reflexivity|]).
  intros (_ & H & _). vm_compute in H. apply H. reflexivity.
Qed.

(** C7 fails as stated.  Three keyframes at time 5: the first one gives the
    segment from 0 to 5, the other two are skipped, and the plan is not
    empty. *)
Lemma identical_nonzero_times_plan :
  ffmpegAdjustSpeed 60 (map kf64 [5; 5; 5])
  = inr [ {| sourceStart := 0; sourceEnd := 5; speedFactor := 1; label := 0 |} ].
Proof. vm_compute. reflexivity. Qed.

(** C10 fails on float64.  The keyframe lists 0.5, 0.6, 2.9 and 0.5, 0.7, 2.9
    agree on the first time, the last time and the length.  The rounded sums
    of their intervals differ in the last places, 2.3999999999999999 against
    2.4000000000000004; the first estimate is 50, which is accepted as it is,
    the second is just below 50 and is doubled. *)
Lemma estimate_depends_on_the_middle :
  let a := map kf64 [0.5; 0.6; 2.9] in
  let b := map kf64 [0.5; 0.7; 2.9] in
  List.length a = List.length b /\
  first_time a = first_time b /\
  last_time a = last_time b /\
  totalInterval 0 (kf64 0.5) (map kf64 [0.6; 2.9]) = 2.3999999999999999 /\
  totalInterval 0 (kf64 0.5) (map kf64 [0.7; 2.9]) = 2.4000000000000004 /\
  estimateBPM a = 50 /\
  estimateBPM b = 99.999999999999986 /\
  (estimateBPM a =? estimateBPM b) = false.
Proof. cbv zeta. repeat split; vm_compute; reflexivity. Qed.

End Scenarios.

(** ** The theorems at concrete inputs *)

Section Witnesses.

(** [speed_factor_nonzero_quotient] at the second segment of the keyframes
    129/256 and 2065/4096, 60 bpm: the speed factor is nonzero, and negative. *)
Lemma speed_factor_nonzero_quotient_witness :
  let plan := emitted 60%Q (map kfQ [129 # 256; 2065 # 4096]%Q) in
  let s := nth 1 plan {| sourceStart := 0; sourceEnd := 0; speedFactor := 0; label := 0 |}%Q in
  (0 < 60)%Q /\ In s plan /\
  (speedFactor s == 0 -> False)%Q /\
  (0 < speedFactor s
   <-> 0 < (sourceEnd s - sourceStart s)
           * adjustedSegmentDuration (60 / 60) (sourceStart s) (sourceEnd s))%Q.
Proof.
  cbv zeta.
  assert (Hb : (0 < 60)%Q) by reflexivity.
  assert (Hin : In (nth 1 (emitted 60%Q (map kfQ [129 # 256; 2065 # 4096]%Q))
                      {| sourceStart := 0; sourceEnd := 0; speedFactor := 0; label := 0 |}%Q)
                   (emitted 60%Q (map kfQ [129 # 256; 2065 # 4096]%Q))).
  { vm_compute. right. left. reflexivity. }
  split; [exact Hb|]. split; [exact Hin|].
  pose proof (@speed_factor_nonzero_quotient _ _ _ Hb Hin) as H. cbv zeta in H.
  destruct H as (_ & _ & _ & H1 & H2). split; [exact H1|exact H2].
Defined.

(** [zero_durations] on binary64, for keyframes with a doubled time and a
    zero target duration. *)
Lemma zero_durations_witness :
  Forall (fun s : Segment float =>
            (sourceEnd s - sourceStart s =? 0)%float = false /\
            (adjustedSegmentDuration (60 / 60)%float (sourceStart s) (sourceEnd s)
             =? 0)%float = false /\
            speedFactor s
            = ((sourceEnd s - sourceStart s)
               / adjustedSegmentDuration (60 / 60) (sourceStart s) (sourceEnd s))%float)
         (emitted 60%float (map kf64 [0; 0.0009765625; 0.0009765625; 2]%float)).
Proof.
  exact (proj2 (proj2 (@zero_durations float binary64 binary64_laws 60%float
                         (map kf64 [0; 0.0009765625; 0.0009765625; 2]%float)))).
Defined.

(** [source_timeline_partitioned] on binary64: the source durations of the
    plan for 0, 0.5, 0.5, 1.1 add up to the number the float 1.1 stands for. *)
Lemma source_timeline_partitioned_witness :
  let kfs := map kf64 [0; 0.5; 0.5; 1.1]%float in
  (source_length (emitted 60%float kfs) == value (last_time kfs) - 0)%Q /\
  Qred (value (last_time kfs)) = (2476979795053773 # 2251799813685248)%Q.
Proof.
  cbv zeta. split.
  - exact (proj2 (proj2 (@source_timeline_partitioned float binary64 binary64_laws 60%float
                           (map kf64 [0; 0.5; 0.5; 1.1]%float)))).
  - vm_compute. reflexivity.
Defined.

(** [first_segment_from_zero] on binary64, first keyframe at 0.5. *)
Lemma first_segment_from_zero_witness :
  (0 <? 0.5)%float = true /\
  (exists rest,
      emitted 60%float (map kf64 [0.5; 1.1]%float)
      = {| sourceStart := 0%float; sourceEnd := 0.5%float;
           speedFactor := ((0.5 - 0) / adjustedSegmentDuration (60 / 60) 0 0.5)%float;
           label := 0 |} :: rest) /\
  ffmpegAdjustSpeed 60%float [kf64 0.5%float]
  = inr [ {| sourceStart := 0%float; sourceEnd := 0.5%float;
             speedFactor := ((0.5 - 0) / adjustedSegmentDuration (60 / 60) 0 0.5)%float;
             label := 0 |} ].
Proof.
  pose proof (@first_segment_from_zero float binary64 binary64_laws 60%float
                (kf64 0.5%float) [kf64 1.1%float]) as H.
  cbv zeta in H. destruct H as [H1 H2].
  split; [reflexivity|]. split.
  - exact (H1 eq_refl).
  - exact (proj2 (H2 eq_refl)).
Defined.

(** [identical_times] on binary64, three keyframes at time 5. *)
Lemma identical_times_witness :
  is_finite 5%float = true /\
  Forall (fun kf : Keyframe float => Time kf = 5%float) (map kf64 [5; 5; 5]%float) /\
  ffmpegAdjustSpeed 60%float (map kf64 [5; 5; 5]%float)
  = inr [ {| sourceStart := 0%float; sourceEnd := 5%float;
             speedFactor := ((5 - 0) / adjustedSegmentDuration (60 / 60) 0 5)%float;
             label := 0 |} ].
Proof.
  assert (Hfin : is_finite 5%float = true) by reflexivity.
  assert (Hall : Forall (fun kf : Keyframe float => Time kf = 5%float)
                        (kf64 5%float :: map kf64 [5; 5]%float)).
  { repeat constructor. }
  split; [exact Hfin|]. split; [exact Hall|].
  pose proof (@identical_times float binary64 binary64_laws 60%float _ _ _ Hfin Hall) as H. cbv zeta in H.
  destruct H as (_ & _ & H). exact (proj2 (H eq_refl)).
Defined.

(** [nearest_beat_rounds_to_hundredth] at 60 bpm and t = 1.1. *)
Lemma nearest_beat_rounds_to_hundredth_witness :
  (0 < 60)%Q /\
  rounds_to_hundredth ((11 # 10) / (60 / 60)) (roundToBeat ((11 # 10) / (60 / 60))%Q).
Proof.
  assert (Hb : (0 < 60)%Q) by reflexivity.
  split; [exact Hb|].
  pose proof (@nearest_beat_rounds_to_hundredth 60%Q (11 # 10)%Q Hb) as H. cbv zeta in H.
  destruct H as (_ & _ & H & _). exact H.
Defined.

(** [estimate_depends_on_ends] on the two keyframe lists that float64 tells
    apart: in exact arithmetic they get the same estimate, 50. *)
Lemma estimate_depends_on_ends_witness :
  let a := map kfQ [1 # 2; 3 # 5; 29 # 10]%Q in
  let b := map kfQ [1 # 2; 7 # 10; 29 # 10]%Q in
  (2 <= List.length a)%nat /\ List.length b = List.length a /\
  (first_time b == first_time a)%Q /\ (last_time b == last_time a)%Q /\
  (estimateBPM b == estimateBPM a)%Q /\
  Qred (estimateBPM a) = 50%Q.
Proof.
  cbv zeta.
  assert (H1 : (2 <= List.length (map kfQ [1 # 2; 3 # 5; 29 # 10]%Q))%nat) by (simpl; lia).
  assert (H2 : List.length (map kfQ [1 # 2; 7 # 10; 29 # 10]%Q)
               = List.length (map kfQ [1 # 2; 3 # 5; 29 # 10]%Q)) by reflexivity.
  assert (H3 : (first_time (map kfQ [1 # 2; 7 # 10; 29 # 10]%Q)
                == first_time (map kfQ [1 # 2; 3 # 5; 29 # 10]%Q))%Q) by reflexivity.
  assert (H4 : (last_time (map kfQ [1 # 2; 7 # 10; 29 # 10]%Q)
                == last_time (map kfQ [1 # 2; 3 # 5; 29 # 10]%Q))%Q) by reflexivity.
  repeat (split; [assumption|]).
  split; [exact (proj2 (@estimate_depends_on_ends _ _ H1 H2 H3 H4))|].
  vm_compute. reflexivity.
Defined.

End Witnesses.

(** ** More on the planner *)

(** Facts on the specification of IEEE 754 arithmetic, continued. *)
Module SFMore.

Import SF.
Local Open Scope Z_scope.
Lemma digits2_shift (m : positive) (k : Z) (p : positive) :
  0 <= k -> Zpos p = Zpos m * 2 ^ k -> Zpos (digits2_pos p) = Zpos (digits2_pos m) + k.
Proof.
  intros Hk E. apply digits2_unique. rewrite E.
  pose proof (digits2_bounds m) as [Hlo Hhi].
  set (d := Zpos (digits2_pos m)) in *.
  assert (Hd : 1 <= d) by (unfold d; lia).
  assert (Hp : 0 < 2 ^ k) by (apply Z.pow_pos_nonneg; lia).
  replace (d + k - 1) with ((d - 1) + k) by lia.
  rewrite !Z.pow_add_r by lia. nia.
Qed.

Lemma canonical_exp (m : positive) (e : Z) :
  bounded prec emax m e = true -> fexp prec emax (Zpos (digits2_pos m) + e) = e.
Proof.
  unfold bounded, canonical_mantissa. intros H. apply andb_prop in H. destruct H as [H _].
  now apply Z.eqb_eq in H.
Qed.

(** A number has one representation in the format. *)
Lemma canonical_unique (mx my : positive) (ex ey : Z) :
  bounded prec emax mx ex = true -> bounded prec emax my ey = true ->
  Zpos mx * 2 ^ (ex - Z.min ex ey) = Zpos my * 2 ^ (ey - Z.min ex ey) ->
  ex = ey /\ mx = my.
Proof.
  intros Bx By E. apply canonical_exp in Bx, By.
  destruct (Z_le_gt_dec ex ey) as [Hle|Hgt].
  - rewrite Z.min_l in E by lia. rewrite Z.sub_diag, Z.mul_1_r in E.
    pose proof (@digits2_shift my (ey - ex) mx ltac:(lia) E) as D.
    assert (Ee : ex = ey) by (rewrite <- Bx, <- By; f_equal; lia).
    split; [exact Ee|]. subst ey. rewrite Z.sub_diag, Z.mul_1_r in E. congruence.
  - rewrite Z.min_r in E by lia. rewrite Z.sub_diag, Z.mul_1_r in E.
    pose proof (@digits2_shift mx (ex - ey) my ltac:(lia) (eq_sym E)) as D.
    assert (Ee : ex = ey) by (rewrite <- Bx, <- By; f_equal; lia).
    lia.
Qed.

Lemma SFeqb_finite (sx sy : bool) (mx my : positive) (ex ey : Z) :
  SFeqb (S754_finite sx mx ex) (S754_finite sy my ey) = true <->
  sx = sy /\ ex = ey /\ mx = my.
Proof.
  unfold SFeqb, SFcompare. split.
  - intros H.
    destruct sx, sy; try discriminate;
      destruct (Z.compare_spec ex ey) as [Ee|Ee|Ee]; try discriminate;
      destruct (Pos.compare_cont Eq mx my) eqn:Em; try discriminate;
      apply Pos.compare_eq in Em; auto.
  - intros (-> & -> & ->). rewrite Z.compare_refl.
    change (Pos.compare_cont Eq my my) with (Pos.compare my my). rewrite Pos.compare_refl.
    destruct sy; reflexivity.
Qed.

Lemma sub_is_zero_iff_eqb (x y : spec_float) :
  valid_binary x = true -> valid_binary y = true ->
  match x with S754_zero _ | S754_finite _ _ _ => True | _ => False end ->
  match y with S754_zero _ | S754_finite _ _ _ => True | _ => False end ->
  (exists s, SFsub prec emax x y = S754_zero s) <-> SFeqb x y = true.
Proof.
  intros Vx Vy Fx Fy.
  destruct x as [sx|sx| |sx mx ex]; try contradiction;
    destruct y as [sy|sy| |sy my ey]; try contradiction.
  - split; [reflexivity|]. intros _. destruct sx, sy; eexists; reflexivity.
  - split; [intros [s H]; simpl in H; discriminate|].
    unfold SFeqb. simpl. destruct sy; discriminate.
  - split; [intros [s H]; simpl in H; discriminate|].
    unfold SFeqb. simpl. destruct sx; discriminate.
  - rewrite SFeqb_finite. split.
    + intros [s H]. unfold SFsub in H.
      pose proof (valid_exp _ _ _ Vx) as Hex. pose proof (valid_exp _ _ _ Vy) as Hey.
      rewrite emin_val in Hex, Hey.
      change (IntDef.Z.min ex ey) with (Z.min ex ey) in H.
      assert (Hz : emin <= Z.min ex ey) by (rewrite emin_val; lia).
      apply (@binary_normalize_zero _ _ _ _ Hz) in H.
      rewrite !shl_align_spec in H by lia. cbn [fst] in H.
      set (ez := Z.min ex ey) in *.
      assert (Hx : 0 < Zpos mx * 2 ^ (ex - ez))
        by (apply Z.mul_pos_pos; [lia|apply Z.pow_pos_nonneg; lia]).
      assert (Hy : 0 < Zpos my * 2 ^ (ey - ez))
        by (apply Z.mul_pos_pos; [lia|apply Z.pow_pos_nonneg; lia]).
      rewrite !Z2Pos.id in H by lia.
      assert (Es : sx = sy) by (destruct sx, sy; unfold cond_Zopp in H; try reflexivity; lia).
      subst sy. split; [reflexivity|].
      apply canonical_unique; try assumption.
      fold ez. destruct sx; unfold cond_Zopp in H; lia.
    + intros (-> & -> & ->). unfold SFsub. rewrite Z.sub_diag. eexists. reflexivity.
Qed.

(** Rounding a nonzero mantissa gives a finite number or an infinity, of
    the sign asked for. *)
Lemma binary_round_aux_shape (s : bool) (m e : Z) (l : location) :
  0 < m -> emin <= e ->
  match binary_round_aux prec emax s m e l with
  | S754_finite s' _ _ | S754_infinity s' => s' = s
  | _ => False
  end.
Proof.
  intros Hm He. unfold binary_round_aux.
  pose proof (@shr_fexp_pos m e l Hm He) as [H1 H1'].
  destruct (shr_fexp prec emax m e l) as [mrs' e'] eqn:E1. simpl in H1, H1'.
  pose proof (@shr_fexp_pos _ e' loc_Exact
                (@round_nearest_even_pos _ (loc_of_shr_record mrs') H1) H1') as [H2 _].
  destruct (shr_fexp prec emax _ e' loc_Exact) as [mrs'' e''] eqn:E2. simpl in H2.
  destruct (shr_m mrs''); try lia.
  destruct (e'' <=? emax - prec); reflexivity.
Qed.

Lemma binary_round_shape (s : bool) (m : positive) (e : Z) :
  emin <= e ->
  match binary_round prec emax s m e with
  | S754_finite s' _ _ | S754_infinity s' => s' = s
  | _ => False
  end.
Proof.
  intros He. unfold binary_round.
  pose proof (@shl_align_exp m e (fexp prec emax (Zpos (digits2_pos m) + e)) He) as H.
  destruct (shl_align m e _) as [mz ez]. simpl in H.
  apply binary_round_aux_shape; [lia|].
  apply H. unfold fexp, SpecFloat.emin, emin, prec, emax. lia.
Qed.

End SFMore.

Module Binary64Equal.
Import Binary64Facts.

Lemma finite_SF (x : float) :
  Binary64.is_finite x = true ->
  match Prim2SF x with S754_zero _ | S754_finite _ _ _ => True | _ => False end.
Proof. unfold Binary64.is_finite. destruct (Prim2SF x); try discriminate; auto. Qed.

Lemma sub_eq0_eqb (x y : float) :
  Binary64.is_finite x = true -> Binary64.is_finite y = true ->
  (x - y =? 0)%float = (x =? y)%float.
Proof.
  intros Fx Fy. apply eq_true_iff_eq.
  rewrite eqb_zero_SF, FloatAxioms.sub_spec, FloatAxioms.eqb_spec.
  rewrite <- (@SFMore.sub_is_zero_iff_eqb _ _ (finite_valid x) (finite_valid y)
                (@finite_SF x Fx) (@finite_SF y Fy)).
  unfold SF64sub. destruct (SFsub prec emax (Prim2SF x) (Prim2SF y)) as [s| | |]; split;
    try discriminate; try (intros [s' H]; discriminate).
  - intros _. now exists s.
  - reflexivity.
Qed.

End Binary64Equal.

#[export] Instance binary64_equal : Float64Equal float.
Proof. split. exact Binary64Equal.sub_eq0_eqb. Qed.

#[export] Instance exact_equal : Float64Equal Q.
Proof.
  split. intros x y _ _. simpl. apply eq_true_iff_eq. rewrite !Qeq_bool_iff.
  change (inject_Z 0) with 0%Q. split; intros H; lra.
Qed.

Section PlannerShape.

Context {F : Type} {ops : Float64Ops F}.
Local Open Scope f64_scope.

Lemma sorted_snoc (l : list nat) (n : nat) :
  StronglySorted lt l -> Forall (fun k => (k < n)%nat) l -> StronglySorted lt (l ++ [n]).
Proof.
  induction l as [|a l IH]; intros Hs Hf; simpl.
  - constructor; constructor.
  - inversion Hs as [|? ? Hs' Ha]; subst. inversion Hf as [|? ? Hna Hf']; subst.
    constructor; [now apply IH|].
    apply Forall_app. split; [assumption|]. constructor; [assumption|constructor].
Qed.

(** X1. Every emitted segment is labelled with the index of the keyframe it
    ends at: the labels of the plan are strictly increasing indices into the
    keyframes (so no two filters share a label), the source of the segment
    labelled [i] ends at the time of keyframe [i], and the plan has at most
    as many segments as there are keyframes. *)
Theorem labels_index_keyframes (bpm : F) (kfs : list (Keyframe F)) :
  let plan := emitted bpm kfs in
  StronglySorted lt (map (@label F) plan) /\
  Forall (fun s => exists kf, nth_error kfs (label s) = Some kf /\ sourceEnd s = Time kf) plan /\
  (List.length plan <= List.length kfs)%nat.
Proof.
  cbv zeta. unfold emitted. set (bd := of_int 60 / bpm).
  induction kfs as [|kf kfs IH] using rev_ind.
  - simpl. repeat split; constructor.
  - rewrite loop_snoc. simpl Nat.add. destruct IH as (IHs & IHf & IHl).
    assert (Hold : Forall (fun s => exists k, nth_error (kfs ++ [kf]) (label s) = Some k /\
                                               sourceEnd s = Time k)
                          (parts (loop bd init 0 kfs))).
    { eapply Forall_impl; [|exact IHf]. intros s [k [Hk Hs]]. exists k. split; [|exact Hs].
      rewrite nth_error_app1; [exact Hk|]. apply nth_error_Some. congruence. }
    rewrite length_app. simpl List.length.
    destruct (step_cases bd (loop bd init 0 kfs) (List.length kfs) kf) as [[_ E]|[_ E]];
      rewrite E; simpl.
    + repeat split; [assumption|assumption|lia].
    + rewrite map_app, length_app. simpl. repeat split.
      * apply sorted_snoc; [assumption|].
        apply Forall_map. eapply Forall_impl; [|exact IHf].
        intros s [k [Hk _]]. apply nth_error_Some. congruence.
      * apply Forall_app. split; [assumption|]. constructor; [|constructor].
        exists kf. simpl. split; [|reflexivity].
        rewrite nth_error_app2 by lia. now rewrite Nat.sub_diag.
      * lia.
Qed.

End PlannerShape.

Section PlannerBoundaries.

Context {F : Type} {ops : Float64Ops F} {laws : Float64Laws F} {equal : Float64Equal F}.
Local Open Scope f64_scope.

Lemma skips_eqb (st : LoopState F) (i : nat) (kf : Keyframe F) :
  is_finite (lastTime st) = true -> is_finite (Time kf) = true ->
  (i = 0%nat -> lastTime st = of_int 0) ->
  skips st i kf = (Time kf == lastTime st).
Proof.
  intros Fl Ft H0. unfold skips. rewrite sub_eq0_eqb by assumption.
  destruct i as [|i]; simpl; [|reflexivity].
  rewrite (H0 eq_refl). apply orb_diag.
Qed.

Lemma loop_boundaries (bd : F) (kfs : list (Keyframe F)) (st : LoopState F) (i : nat) :
  is_finite (lastTime st) = true ->
  Forall (fun kf => is_finite (Time kf) = true) kfs ->
  (i = 0%nat -> lastTime st = of_int 0) ->
  map (@sourceEnd F) (parts (loop bd st i kfs))
  = map (@sourceEnd F) (parts st) ++ boundaries (lastTime st) (map (@Time F) kfs).
Proof.
  revert st i. induction kfs as [|kf kfs IH]; intros st i Fl Fk H0; simpl.
  - now rewrite app_nil_r.
  - inversion Fk as [|? ? Fkf Frest]; subst.
    pose proof (@skips_eqb st i kf Fl Fkf H0) as Es.
    destruct (step_cases bd st i kf) as [[Hs E]|[Hs E]]; rewrite E; rewrite Es in Hs; rewrite Hs.
    + apply IH; auto. intros Hi. discriminate.
    + rewrite IH; simpl; auto; [|intros Hi; discriminate].
      rewrite map_app, <- app_assoc. reflexivity.
Qed.

Lemma emitted_ends (bpm : F) (kfs : list (Keyframe F)) :
  Forall (fun kf => is_finite (Time kf) = true) kfs ->
  map (@sourceEnd F) (emitted bpm kfs) = boundaries (of_int 0) (map (@Time F) kfs).
Proof.
  intros Fk. unfold emitted. rewrite loop_boundaries; auto. apply zero_finite.
Qed.

(** X2. For finite keyframe times the ends of the emitted segments are the
    keyframe times with every time left out that compares equal to the end
    before it, the end before the first being 0.  The guard on the first
    keyframe adds nothing to this: a first keyframe at 0 has a zero source
    duration as well. *)
Theorem plan_boundaries (bpm : F) (kfs : list (Keyframe F)) :
  Forall (fun kf => is_finite (Time kf) = true) kfs ->
  map (@sourceEnd F) (emitted bpm kfs) = boundaries (of_int 0) (map (@Time F) kfs) /\
  List.length (emitted bpm kfs) = List.length (boundaries (of_int 0) (map (@Time F) kfs)).
Proof.
  intros Fk. pose proof (emitted_ends bpm Fk) as E.
  split; [exact E|]. rewrite <- E. now rewrite length_map.
Qed.

Lemma boundaries_nil (last : F) (ts : list F) :
  boundaries last ts = [] <-> Forall (fun t => (t == last) = true) ts.
Proof.
  induction ts as [|t ts IH]; simpl.
  - split; [constructor|reflexivity].
  - destruct (t == last) eqn:E.
    + rewrite IH. split; [now constructor|]. intros H. now inversion H.
    + split; [discriminate|]. intros H. inversion H. congruence.
Qed.

(** X3. For finite keyframe times the planner fails with "no segments to
    process" exactly when every keyframe time compares equal to 0 (an empty
    keyframe list included). *)
Theorem no_plan_iff_all_zero (bpm : F) (kfs : list (Keyframe F)) :
  Forall (fun kf => is_finite (Time kf) = true) kfs ->
  (ffmpegAdjustSpeed bpm kfs = inl "no segments to process"%string <->
   Forall (fun kf => (Time kf == of_int 0) = true) kfs).
Proof.
  intros Fk. pose proof (emitted_ends bpm Fk) as E.
  assert (Hnil : emitted bpm kfs = [] <->
                 Forall (fun kf => (Time kf == of_int 0) = true) kfs).
  { rewrite <- (Forall_map (@Time F) (fun t => (t == of_int 0) = true)).
    rewrite <- boundaries_nil, <- E. split; [intros ->; reflexivity|apply map_eq_nil]. }
  rewrite <- Hnil. unfold ffmpegAdjustSpeed.
  destruct (emitted bpm kfs); simpl; split; intros H; congruence.
Qed.

End PlannerBoundaries.

(** ** More on exact arithmetic *)

Section ExactPlanner.

Local Open Scope Q_scope.
Import ExactFacts.

Lemma nearestBeatTime_exact (bd t : Q) :
  nearestBeatTime bd t = roundToBeat (t / bd) * bd.
Proof. reflexivity. Qed.

Lemma roundToBeat_Qeq (x y : Q) : x == y -> roundToBeat x = roundToBeat y.
Proof.
  intros E. rewrite !roundToBeat_exact.
  rewrite (@Binary64Facts.Round_Qeq (x * 100) (y * 100)) by (rewrite E; reflexivity).
  reflexivity.
Qed.

Lemma beat_duration_pos (bpm : Q) : 0 < bpm -> 0 < 60 / bpm.
Proof. intros H. apply Qlt_shift_div_l; lra. Qed.

(** Snapping moves a time by half a hundredth of a beat at most. *)
Lemma snap_distance (bd t : Q) :
  0 < bd -> Qabs (nearestBeatTime bd t - t) <= bd / 200.
Proof.
  intros Hbd. rewrite nearestBeatTime_exact.
  destruct (roundToBeat_rounds (t / bd)) as (_ & Hn & _).
  set (r := roundToBeat (t / bd)) in *.
  assert (Et : t == t / bd * bd) by (field; lra).
  set (x := t / bd) in *.
  assert (Eh : bd / 200 == bd * (1 # 200)) by field.
  split_Qabs (r - x); split_Qabs (r * bd - t); nra.
Qed.

Lemma roundToBeat_fixed (x : Q) : roundToBeat (roundToBeat x) == roundToBeat x.
Proof.
  destruct (roundToBeat_rounds x) as ([z Hz] & _ & _).
  set (r := roundToBeat x) in *.
  rewrite roundToBeat_exact.
  assert (E : r * 100 == inject_Z z) by (rewrite Hz; field).
  rewrite (Binary64Facts.Round_Qeq E), Binary64Facts.Round_integer, Hz. reflexivity.
Qed.

(** X4. In exact arithmetic and for a positive bpm, the planner hardly
    retimes: the nearest beat of a keyframe lies within half a hundredth of a
    beat of it, so the target duration of an emitted segment is either the
    clamp 0.01 (the nearest beat of its end is its start) or differs from the
    source duration by at most [beatDuration / 200]. *)
Theorem retiming_is_small (bpm : Q) (kfs : list (Keyframe Q)) (s : Segment Q) :
  0 < bpm -> In s (emitted bpm kfs) ->
  let bd := 60 / bpm in
  let source := sourceEnd s - sourceStart s in
  let target := adjustedSegmentDuration bd (sourceStart s) (sourceEnd s) in
  Qabs (nearestBeatTime bd (sourceEnd s) - sourceEnd s) <= bd / 200 /\
  ((nearestBeatTime bd (sourceEnd s) == sourceStart s /\ target = 1 # 100) \/
   Qabs (target - source) <= bd / 200).
Proof.
  intros Hb Hin. cbv zeta.
  pose proof (@snap_distance (60 / bpm) (sourceEnd s) (beat_duration_pos Hb)) as Hs.
  split; [exact Hs|].
  unfold adjustedSegmentDuration.
  match goal with |- context [if ?c then _ else _] => destruct c eqn:E end.
  - left. apply Qeq_bool_iff in E. cbn [fsub of_int exact] in E.
    change (inject_Z 0) with 0 in E. split; [lra|reflexivity].
  - right. cbn [fsub exact].
    set (n := nearestBeatTime (60 / bpm) (sourceEnd s)) in *.
    assert (En : n - sourceStart s - (sourceEnd s - sourceStart s) == n - sourceEnd s) by ring.
    rewrite En. exact Hs.
Qed.

(** X5. In exact arithmetic snapping is idempotent: the nearest beat of a
    nearest beat is that beat. *)
Theorem nearest_beat_idempotent (bpm t : Q) :
  0 < bpm ->
  let bd := 60 / bpm in
  nearestBeatTime bd (nearestBeatTime bd t) == nearestBeatTime bd t.
Proof.
  intros Hb. cbv zeta. pose proof (beat_duration_pos Hb) as Hbd.
  rewrite (nearestBeatTime_exact (60 / bpm) (nearestBeatTime (60 / bpm) t)).
  rewrite (nearestBeatTime_exact (60 / bpm) t).
  set (r := roundToBeat (t / (60 / bpm))).
  assert (E : r * (60 / bpm) / (60 / bpm) == r) by (field; lra).
  rewrite (roundToBeat_Qeq E). unfold r. rewrite roundToBeat_fixed. reflexivity.
Qed.

(** X6. In exact arithmetic and for a positive bpm, an emitted segment whose
    end already lies on the grid of hundredths of a beat keeps its speed: the
    speed factor is 1, wherever the segment starts. *)
Theorem on_grid_keeps_speed (bpm : Q) (kfs : list (Keyframe Q)) (s : Segment Q) :
  0 < bpm -> In s (emitted bpm kfs) ->
  nearestBeatTime (60 / bpm) (sourceEnd s) == sourceEnd s ->
  speedFactor s == 1.
Proof.
  intros Hb Hin Hgrid.
  pose proof (emitted_well_formed bpm kfs) as Hwf.
  rewrite Forall_forall in Hwf. destruct (Hwf s Hin) as [Hsrc Hsf].
  apply Qeq_bool_false in Hsrc. cbn [fsub of_int exact] in Hsrc.
  change (inject_Z 0) with 0 in Hsrc.
  rewrite Hsf. unfold adjustedSegmentDuration.
  change (of_int 60 / bpm)%f64 with (60 / bpm).
  match goal with |- context [if ?c then _ else _] => destruct c eqn:E end.
  - exfalso. apply Qeq_bool_iff in E. cbn [fsub of_int exact] in E.
    change (inject_Z 0) with 0 in E. apply Hsrc. lra.
  - cbn [fsub fdiv exact]. rewrite Hgrid. field. exact Hsrc.
Qed.

End ExactPlanner.

Section ExactEstimator.

Local Open Scope Q_scope.
Import ExactFacts.

Lemma plausible_exact (x : Q) : plausible x = true <-> 50 <= x <= 200.
Proof.
  unfold plausible. simpl. rewrite andb_true_iff, !Qle_bool_iff.
  change (inject_Z 50) with 50. change (inject_Z 200) with 200. tauto.
Qed.

Lemma plausible_exact_false (x : Q) : plausible x = false <-> x < 50 \/ 200 < x.
Proof.
  rewrite <- not_true_iff_false, plausible_exact. split.
  - intros H. destruct (Qlt_le_dec x 50); [now left|].
    destruct (Qlt_le_dec 200 x); [now right|]. exfalso. apply H. split; assumption.
  - intros [H|H] [H1 H2]; lra.
Qed.

Lemma closest_exact (ie : Q) :
  closest ie ie [1; 2; 4]
  = if plausible (ie * 1) then ie * 1
    else if plausible (ie * 2) then ie * 2
    else if plausible (ie * 4) then ie * 4 else ie.
Proof. reflexivity. Qed.

(** X7. In exact arithmetic, for at least two keyframes whose last time is
    after the first, with [ie = 60 (n - 1) / (last - first)]: the estimate is
    [ie], [2 ie] or [4 ie] and never below [ie]; it lies in [50, 200] exactly
    when [12.5 <= ie <= 200]; an [ie] above 200 or below 12.5 is returned as
    it is (a tempo is never halved, and never more than quadrupled). *)
Theorem estimate_range (k0 k1 : Keyframe Q) (rest : list (Keyframe Q)) :
  let kfs := k0 :: k1 :: rest in
  let n := inject_Z (Z.of_nat (List.length kfs) - 1) in
  let ie := 60 * n / (last_time kfs - first_time kfs) in
  first_time kfs < last_time kfs ->
  (estimateBPM kfs == ie \/ estimateBPM kfs == 2 * ie \/ estimateBPM kfs == 4 * ie) /\
  ie <= estimateBPM kfs /\
  (plausible (estimateBPM kfs) = true <-> 25 # 2 <= ie <= 200) /\
  (200 < ie -> estimateBPM kfs == ie) /\
  (ie < 25 # 2 -> estimateBPM kfs == ie).
Proof.
  cbv zeta. intros Hlt.
  pose proof (estimateBPM_from_ends k0 k1 rest) as E. cbv zeta in E.
  set (kfs := k0 :: k1 :: rest) in *.
  set (f := first_time kfs) in *. set (l := last_time kfs) in *.
  assert (Hn : 1 <= inject_Z (Z.of_nat (List.length kfs) - 1)).
  { change 1 with (inject_Z 1). rewrite <- Zle_Qle. unfold kfs. simpl List.length. lia. }
  set (n := inject_Z (Z.of_nat (List.length kfs) - 1)) in *.
  unfold estimate_from in E. fold n in E.
  assert (Ei : 60 / ((l - f) / n) == 60 * n / (l - f)) by (field; split; lra).
  set (ie := 60 * n / (l - f)) in *.
  assert (Hie : 0 < ie).
  { unfold ie. apply Qlt_shift_div_l; [lra|]. nra. }
  assert (E' : estimateBPM kfs == closest ie ie [1; 2; 4]).
  { rewrite E. apply closest_Qeq; exact Ei. }
  rewrite closest_exact in E'.
  assert (P : plausible (estimateBPM kfs) = plausible
               (if plausible (ie * 1) then ie * 1
                else if plausible (ie * 2) then ie * 2
                else if plausible (ie * 4) then ie * 4 else ie))
    by (apply plausible_Qeq; exact E').
  rewrite P. rewrite E'. clear P E' E.
  destruct (plausible (ie * 1)) eqn:P1;
    [|destruct (plausible (ie * 2)) eqn:P2;
      [|destruct (plausible (ie * 4)) eqn:P4]];
    rewrite ?plausible_exact in *; rewrite ?plausible_exact_false in *;
    (split; [first [left; lra | right; left; lra | right; right; lra]|]);
    intuition lra.
Qed.

Lemma moved_times (c : Q) (kfs : list (Keyframe Q)) :
  map (@Time Q) (map (moved c) kfs) = map (fun t => t + c) (map (@Time Q) kfs).
Proof. rewrite !map_map. reflexivity. Qed.

Lemma last_map_default (A B : Type) (g : A -> B) (l : list A) (a : A) :
  last (map g l) (g a) = g (last l a).
Proof.
  revert a. induction l as [|x l IH]; intros a; [reflexivity|].
  simpl map. rewrite !last_cons. apply IH.
Qed.

(** X8. In exact arithmetic the estimate does not change when all keyframes
    are moved by the same amount of time. *)
Theorem estimate_shift_invariant (c : Q) (kfs : list (Keyframe Q)) :
  estimateBPM (map (moved c) kfs) == estimateBPM kfs.
Proof.
  destruct kfs as [|k0 [|k1 rest]]; try reflexivity.
  change (map (moved c) (k0 :: k1 :: rest))
    with (moved c k0 :: moved c k1 :: map (moved c) rest).
  rewrite (estimateBPM_from_ends (moved c k0) (moved c k1) (map (moved c) rest)).
  rewrite (estimateBPM_from_ends k0 k1 rest).
  unfold estimate_from, first_time, last_time.
  simpl List.length. rewrite length_map.
  simpl map. simpl hd. rewrite !last_cons. rewrite moved_times.
  rewrite (last_map_default (fun t => t + c) (map (@Time Q) rest) (Time k1)).
  set (l := last (map (@Time Q) rest) (Time k1)).
  apply closest_Qeq;
    assert (E : l + c - (Time k0 + c) == l - Time k0) by ring; rewrite E; reflexivity.
Qed.

End ExactEstimator.

(** ** The estimator on binary64 *)

Module Binary64Estimate.
Import Binary64Facts.

Lemma sub_diag_zero (t : float) :
  Binary64.is_finite t = true -> (t - t)%float = 0%float.
Proof.
  unfold Binary64.is_finite. intros Hfin.
  apply Prim2SF_inj. rewrite FloatAxioms.sub_spec.
  change (Prim2SF 0%float) with (S754_zero false).
  destruct (Prim2SF t) as [[|]|[|]| |s m e]; try discriminate; try reflexivity.
  unfold SF64sub, SFsub. rewrite Z.sub_diag. reflexivity.
Qed.

Lemma totalInterval_identical (t : float) (prev : Keyframe float) (rest : list (Keyframe float)) :
  Binary64.is_finite t = true -> Time prev = t ->
  Forall (fun kf => Time kf = t) rest ->
  totalInterval 0%float prev rest = 0%float.
Proof.
  intros Hfin. revert prev. induction rest as [|kf rest IH]; intros prev Hp Hall; [reflexivity|].
  inversion Hall as [|? ? Hk Hrest]; subst. simpl totalInterval.
  simpl in Hk. rewrite Hk. simpl fsub. rewrite sub_diag_zero by assumption.
  change (0 + 0)%f64 with 0%float. now apply IH.
Qed.

Lemma of_Z_positive (k : Z) :
  (0 < k < 2 ^ 63)%Z ->
  match Prim2SF (Binary64.of_Z k) with
  | S754_finite s _ _ | S754_infinity s => s = false
  | _ => False
  end.
Proof.
  intros [Hlo Hhi]. destruct k as [|p|p]; try lia.
  unfold Binary64.of_Z. rewrite of_uint63_spec, Uint63.of_Z_spec.
  rewrite Z.mod_small by (split; [lia|exact Hhi]).
  apply SFMore.binary_round_shape. rewrite SF.emin_val. lia.
Qed.

Lemma zero_div_positive (y : float) :
  match Prim2SF y with
  | S754_finite s _ _ | S754_infinity s => s = false
  | _ => False
  end ->
  (0 / y)%float = 0%float.
Proof.
  intros H. apply Prim2SF_inj. rewrite FloatAxioms.div_spec.
  change (Prim2SF 0%float) with (S754_zero false).
  destruct (Prim2SF y) as [s|s| |s m e]; try contradiction; subst; reflexivity.
Qed.

End Binary64Estimate.

(** X9. On float64, at least two keyframes that all carry the same finite
    time give the estimate +Inf: the intervals add up to 0, the average
    interval is 0, and 60 / 0 is +Inf, which no multiplier brings into
    [50, 200].  (A slice has fewer than 2^63 elements.) *)
Theorem estimate_of_identical_times
  (t : float) (k0 k1 : Keyframe float) (rest : list (Keyframe float)) :
  is_finite t = true ->
  Forall (fun kf => Time kf = t) (k0 :: k1 :: rest) ->
  (Z.of_nat (List.length (k0 :: k1 :: rest)) < 2 ^ 63)%Z ->
  estimateBPM (k0 :: k1 :: rest) = infinity.
Proof.
  intros Hfin Hall Hlen.
  inversion Hall as [|? ? H0 Hrest]; subst.
  unfold estimateBPM. change (@of_int float binary64 0) with 0%float.
  rewrite (@Binary64Estimate.totalInterval_identical (Time k0) k0 (k1 :: rest) Hfin eq_refl Hrest).
  assert (E : @fdiv float binary64 0%float
                 (@of_int float binary64 (Z.of_nat (List.length (k0 :: k1 :: rest)) - 1))
               = 0%float).
  { change (@fdiv float binary64) with PrimFloat.div.
    change (@of_int float binary64) with Binary64.of_Z.
    apply Binary64Estimate.zero_div_positive. apply Binary64Estimate.of_Z_positive.
    simpl List.length in *. lia. }
  rewrite E. vm_compute. reflexivity.
Qed.


(** ** The name of the output *)

Section OutputNameFacts.

Import GoStrings.
Local Open Scope string_scope.

Lemma LastIndex_bounds (s : string) (c : ascii) : (-1 <= LastIndex s c)%Z.
Proof.
  induction s as [|a r IH]; simpl; [lia|].
  destruct (0 <=? LastIndex r c)%Z eqn:E; [apply Z.leb_le in E; lia|].
  destruct (Ascii.eqb a c); lia.
Qed.

Lemma contains_app (a b : string) (c : ascii) :
  contains (a ++ b) c = contains a c || contains b c.
Proof. induction a as [|x a IH]; simpl; [reflexivity|]. now rewrite IH, orb_assoc. Qed.

Lemma LastIndex_absent (s : string) (c : ascii) :
  contains s c = false -> LastIndex s c = (-1)%Z.
Proof.
  induction s as [|a r IH]; simpl; [reflexivity|]. intros H.
  apply orb_false_elim in H. destruct H as [Ha Hr]. now rewrite (IH Hr), Ha.
Qed.

(** What is left of [s] after the last [c]: it holds no [c], and it is all of
    [s] when [s] holds no [c]. *)
Lemma slice_after_last (s : string) (c : ascii) :
  let tail := slice_from s (LastIndex s c + 1) in
  contains tail c = false /\
  ((contains s c = false /\ tail = s) \/
   (exists pre, s = pre ++ String c tail)).
Proof.
  cbv zeta. unfold slice_from. induction s as [|a r IH].
  - simpl. split; [reflexivity|]. left. split; reflexivity.
  - destruct IH as [IHa IHb]. pose proof (LastIndex_bounds r c) as Hb.
    simpl LastIndex. destruct (0 <=? LastIndex r c)%Z eqn:E.
    + apply Z.leb_le in E.
      replace (Z.to_nat (LastIndex r c + 1 + 1)) with (S (Z.to_nat (LastIndex r c + 1))) by lia.
      simpl drop. split; [exact IHa|]. right.
      destruct IHb as [[Hno _]|[pre Hpre]].
      * apply LastIndex_absent in Hno. lia.
      * exists (String a pre). simpl. now rewrite <- Hpre.
    + apply Z.leb_gt in E. assert (Ek : LastIndex r c = (-1)%Z) by lia.
      rewrite Ek in IHa, IHb. simpl in IHa, IHb.
      destruct IHb as [[Hno _]|[pre Hpre]].
      * destruct (Ascii.eqb a c) eqn:Ea.
        -- apply Ascii.eqb_eq in Ea. subst a. simpl. split; [exact Hno|].
           right. exists "". reflexivity.
        -- simpl. rewrite Ea, Hno. split; [reflexivity|]. left. split; reflexivity.
      * exfalso. rewrite Hpre, contains_app in IHa at 1. simpl in IHa.
        rewrite Ascii.eqb_refl, orb_true_r in IHa. discriminate.
Qed.

(** X10. The name [main] gives the output: the file name is what follows the
    last "/" of the source path and holds no "/", and it is the whole source
    path when that holds no "/" (no other separator is looked for: a path
    written with backslashes is kept whole); the extension is what follows
    the last "." of the file name, or the whole file name when it has no ".";
    and the output path, file name + "_sync" + bpm + "." + extension, holds
    no "/" (as long as the rendering of bpm holds none). *)
Theorem output_name_shape (originalVideoPath bpm0 : string) :
  let name := originalVideoFilename originalVideoPath in
  let ext := originalExtension name in
  contains name "/" = false /\
  ((contains originalVideoPath "/" = false /\ originalVideoPath = name) \/
   exists dir, originalVideoPath = dir ++ "/" ++ name) /\
  contains ext "." = false /\
  ((contains name "." = false /\ ext = name) \/ exists stem, name = stem ++ "." ++ ext) /\
  (contains bpm0 "/" = false -> contains (outputPath originalVideoPath bpm0) "/" = false).
Proof.
  cbv zeta. unfold outputPath, originalExtension, originalVideoFilename.
  pose proof (slice_after_last originalVideoPath "/") as [Hn Hp]. cbv zeta in Hn, Hp.
  set (name := slice_from originalVideoPath (LastIndex originalVideoPath "/" + 1)) in *.
  pose proof (slice_after_last name ".") as [He Hq]. cbv zeta in He, Hq.
  set (ext := slice_from name (LastIndex name "." + 1)) in *.
  split; [exact Hn|]. split.
  { destruct Hp as [[Hno Hp]|[dir Hp]];
      [left; split; [exact Hno|now symmetry]|right; now exists dir]. }
  split; [exact He|]. split.
  { destruct Hq as [Hq|[stem Hq]]; [left; exact Hq|right; now exists stem]. }
  intros Hb. rewrite !contains_app, Hn, Hb. simpl.
  assert (Hx : contains ext "/" = false).
  { destruct Hq as [[_ Hq]|[stem Hq]]; [now rewrite Hq|].
    rewrite Hq, contains_app in Hn. simpl in Hn.
    apply orb_false_elim in Hn. now destruct Hn. }
  now rewrite Hx.
Qed.

Example output_names :
  outputPath "videos/clip.mp4" "120" = "clip.mp4_sync120.mp4" /\
  outputPath "clip" "120" = "clip_sync120.clip" /\
  outputPath ".\Scene-009.mp4" "122" = ".\Scene-009.mp4_sync122.mp4" /\
  outputPath "C:\videos\clip.mp4" "120" = "C:\videos\clip.mp4_sync120.mp4".
Proof. repeat split; reflexivity. Qed.

End OutputNameFacts.

(** ** The pulse overlay *)

Section PulseFacts.

Context {F : Type} {ops : Float64Ops F} {pulse : PulseOps F}.
Local Open Scope f64_scope.

Lemma overlays_spec (bd : F) (n : Z) (fuel : nat) (i : Z) :
  (n + 1 - i <= Z.of_nat fuel)%Z ->
  overlays bd n i fuel
  = map (fun k => let j := (i + Z.of_nat k)%Z in
                  {| pulseStart := of_int j * bd; pulseEnd := of_int j * bd + c0_2; out := j |})
        (seq 0 (Z.to_nat (n + 1 - i))).
Proof.
  revert i. induction fuel as [|fuel IH]; intros i H.
  - simpl. replace (Z.to_nat (n + 1 - i)) with 0%nat by lia. reflexivity.
  - simpl overlays. destruct (i <=? n)%Z eqn:E.
    + apply Z.leb_le in E. rewrite IH by lia.
      replace (Z.to_nat (n + 1 - i)) with (S (Z.to_nat (n + 1 - (i + 1)))) by lia.
      simpl seq. simpl map. f_equal.
      * cbv zeta. now rewrite Z.add_0_r.
      * rewrite <- seq_shift, map_map. apply map_ext. intros k. cbv zeta.
        replace (i + 1 + Z.of_nat k)%Z with (i + Z.of_nat (S k))%Z by lia. reflexivity.
    + apply Z.leb_gt in E. replace (Z.to_nat (n + 1 - i)) with 0%nat by lia. reflexivity.
Qed.

Lemma addPulse_filters (totalDuration bpm : F) :
  fst (addPulseToVideo totalDuration bpm)
  = map (fun k => let j := Z.of_nat k in
                  {| pulseStart := of_int j * (of_int 60 / bpm);
                     pulseEnd := of_int j * (of_int 60 / bpm) + c0_2;
                     out := j |})
        (seq 0 (Z.to_nat (to_int (totalDuration / (of_int 60 / bpm)) + 1))).
Proof.
  unfold addPulseToVideo. cbn [fst]. rewrite overlays_spec by lia.
  rewrite Z.sub_0_r. apply map_ext. intros k. reflexivity.
Qed.

(** X11. The overlay filters of [addPulseToVideo] are labelled 0, 1, ...,
    [numBeats] in this order, the filter labelled [i] holding the pulse from
    [i * beatDuration] to 0.2 s later.  When [numBeats] is not negative there
    are [numBeats + 1] of them and the label mapped to the output is the label
    of the last one; when it is negative there is no filter at all, and the
    mapped label names none. *)
Theorem pulse_overlays (totalDuration bpm : F) :
  let bd := of_int 60 / bpm in
  let numBeats := to_int (totalDuration / bd) in
  let filters := fst (addPulseToVideo totalDuration bpm) in
  snd (addPulseToVideo totalDuration bpm) = numBeats /\
  map out filters = map Z.of_nat (seq 0 (Z.to_nat (numBeats + 1))) /\
  Forall (fun o => pulseStart o = of_int (out o) * bd /\ pulseEnd o = pulseStart o + c0_2)
         filters /\
  ((0 <= numBeats)%Z ->
   List.length filters = Z.to_nat (numBeats + 1) /\
   exists o, last filters o = o /\ In o filters /\ out o = numBeats) /\
  ((numBeats < 0)%Z -> filters = []).
Proof.
  cbv zeta. rewrite addPulse_filters.
  set (bd := of_int 60 / bpm). set (n := to_int (totalDuration / bd)).
  split; [reflexivity|]. split.
  { rewrite map_map. apply map_ext. intros k. reflexivity. }
  split.
  { apply Forall_map. apply Forall_forall. intros k _. cbv zeta. cbn. split; reflexivity. }
  split.
  - intros Hn. rewrite length_map, length_seq. split; [reflexivity|].
    replace (Z.to_nat (n + 1)) with (S (Z.to_nat n)) by lia.
    rewrite seq_S, map_app. simpl map.
    eexists. rewrite last_last. split; [reflexivity|]. split.
    + apply in_or_app. right. left. reflexivity.
    + cbn. lia.
  - intros Hn. replace (Z.to_nat (n + 1)) with 0%nat by lia. reflexivity.
Qed.

End PulseFacts.

Section PulseExact.
Local Open Scope Q_scope.

Lemma trunc_bounds (x : Q) :
  0 <= x -> (0 <= to_int x)%Z /\ inject_Z (to_int x) <= x < inject_Z (to_int x + 1).
Proof.
  intros Hx. simpl. apply Qle_bool_iff in Hx. rewrite Hx. apply Qle_bool_iff in Hx.
  pose proof (Qfloor_le x) as H1. pose proof (Qlt_floor x) as H2.
  split; [|split; assumption].
  assert (H : (-1 < Qfloor x)%Z); [|lia].
  rewrite Zlt_Qlt. rewrite inject_Z_plus in H2. change (inject_Z 1) with 1 in H2.
  change (inject_Z (-1)) with (-1). lra.
Qed.

(** X12. In exact arithmetic, for a positive bpm and a duration that is not
    negative: [numBeats] is not negative, every pulse starts within the video,
    at a multiple of the beat between 0 and the duration, and the beat after
    the last pulse lies beyond the duration. *)
Theorem pulses_within_video (totalDuration bpm : Q) :
  0 < bpm -> 0 <= totalDuration ->
  let bd := 60 / bpm in
  let numBeats := to_int (totalDuration / bd) in
  (0 <= numBeats)%Z /\
  Forall (fun o => 0 <= pulseStart o <= totalDuration /\ pulseEnd o == pulseStart o + (1 # 5))
         (fst (addPulseToVideo totalDuration bpm)) /\
  totalDuration < inject_Z (numBeats + 1) * bd.
Proof.
  intros Hb Ht. cbv zeta.
  assert (Hbd : 0 < 60 / bpm) by (apply Qlt_shift_div_l; lra).
  rewrite addPulse_filters. change (of_int 60 / bpm)%f64 with (60 / bpm).
  set (bd := 60 / bpm) in *.
  assert (Hx : 0 <= totalDuration / bd).
  { apply Qle_shift_div_l; [exact Hbd|]. rewrite Qmult_0_l. exact Ht. }
  destruct (trunc_bounds Hx) as (Hn & Hlo & Hhi).
  assert (Et : totalDuration == totalDuration / bd * bd) by (field; lra).
  change (totalDuration / bd)%f64 with (totalDuration / bd).
  set (x := totalDuration / bd) in *. set (n := to_int x) in *.
  split; [exact Hn|]. split; [|nra].
  apply Forall_map. apply Forall_forall. intros k Hk. apply in_seq in Hk.
  cbv zeta. cbn [pulseStart pulseEnd fmul fadd of_int exact c0_2 exact_pulse].
  assert (H0 : 0 <= inject_Z (Z.of_nat k))
    by (change 0 with (inject_Z 0); rewrite <- Zle_Qle; lia).
  assert (H1 : inject_Z (Z.of_nat k) <= inject_Z n) by (rewrite <- Zle_Qle; lia).
  split; [|reflexivity]. split; nra.
Qed.

End PulseExact.

(** ** The keyframe editor *)

Module EditorFacts.
Import Editor.
Local Open Scope string_scope.
Local Open Scope list_scope.

Lemma get_cons (k a : string) (b : JSON) (o : Obj) :
  get k ((a, b) :: o) = if String.eqb a k then Some b else get k o.
Proof. reflexivity. Qed.

Lemma set_cons (k a : string) (v b : JSON) (o : Obj) :
  set k v ((a, b) :: o) = if String.eqb a k then (a, v) :: o else (a, b) :: set k v o.
Proof. reflexivity. Qed.

Lemma get_set_other (k k' : string) (v : JSON) (o : Obj) :
  k <> k' -> get k' (set k v o) = get k' o.
Proof.
  intros Hk. induction o as [|[a b] o IH].
  - cbn [set]. rewrite get_cons. destruct (String.eqb_spec k k'); [contradiction|reflexivity].
  - rewrite set_cons. destruct (String.eqb_spec a k) as [->|Ha]; rewrite !get_cons.
    + destruct (String.eqb_spec k k'); [contradiction|reflexivity].
    + destruct (String.eqb a k'); [reflexivity|exact IH].
Qed.

Lemma get_without_x (k : string) (o : Obj) : k <> "x" -> get k (without_x o) = get k o.
Proof.
  intros Hk. unfold without_x. induction o as [|[a b] o IH]; [reflexivity|].
  cbn [filter fst]. rewrite get_cons.
  destruct (String.eqb_spec a "x") as [->|Ha]; cbn [negb].
  - destruct (String.eqb_spec "x" k); [congruence|exact IH].
  - rewrite get_cons. destruct (String.eqb a k); [reflexivity|exact IH].
Qed.

Lemma has_without_x (o : Obj) : has "x" (without_x o) = false.
Proof.
  unfold without_x, has. induction o as [|[a b] o IH]; [reflexivity|].
  cbn [filter fst]. destruct (String.eqb a "x") eqn:E; cbn [negb]; [exact IH|].
  cbn [existsb fst]. now rewrite E.
Qed.

Lemma has_get (k : string) (o : Obj) : has k o = true <-> get k o <> None.
Proof.
  unfold has. induction o as [|[a b] o IH].
  - simpl. split; [discriminate|congruence].
  - cbn [existsb fst]. rewrite get_cons.
    destruct (String.eqb a k); cbn [orb]; [split; [discriminate|reflexivity]|exact IH].
Qed.

Lemma remove_first_spec (f : Obj -> bool) (l : list Obj) :
  match remove_first f l with
  | Some l' =>
      exists before k after,
        l = before ++ k :: after /\ l' = before ++ after /\
        f k = true /\ forallb (fun o => negb (f o)) before = true
  | None => forallb (fun o => negb (f o)) l = true
  end.
Proof.
  induction l as [|k l IH]; [reflexivity|].
  cbn [remove_first]. destruct (f k) eqn:Ek.
  - exists [], k, l. repeat split; auto.
  - destruct (remove_first f l) as [l'|].
    + destruct IH as (before & k' & after & -> & -> & Hk & Hb).
      exists (k :: before), k', after. repeat split; auto.
      cbn [forallb]. now rewrite Ek, Hb.
    + cbn [forallb]. now rewrite Ek, IH.
Qed.

Lemma accepted_spec (json : JSON) (l : list Obj) :
  accepted json = Some l ->
  json = JArr (map JObj l) /\ Forall (fun o => has "time" o = true) l.
Proof.
  destruct json as [| | | |js|]; try discriminate. unfold accepted.
  destruct (forallb _ js) eqn:E; [|discriminate]. intros H. injection H as <-.
  induction js as [|j js IH]; [split; [reflexivity|constructor]|].
  cbn [forallb] in E. apply andb_prop in E. destruct E as [Ej Ejs].
  destruct j as [| | | | |o]; try discriminate.
  destruct (IH Ejs) as [IH1 IH2]. cbn [flat_map app map]. split.
  - injection IH1 as IH1. now rewrite <- IH1.
  - constructor; assumption.
Qed.

Lemma objects_of_JObj (l : list Obj) :
  flat_map (fun kf => match kf with JObj o => [o] | _ => [] end) (map JObj l) = l.
Proof. induction l as [|o l IH]; [reflexivity|]. cbn [map flat_map app]. now rewrite IH. Qed.

Lemma accepted_saved (l : list Obj) :
  Forall (fun o => has "time" o = true) l -> accepted (JArr (map JObj l)) = Some l.
Proof.
  intros H. unfold accepted.
  assert (E : forallb (fun kf => match kf with JObj o => has "time" o | _ => false end)
                      (map JObj l) = true).
  { induction H as [|o l Ho Hl IH]; [reflexivity|]. cbn [map forallb]. now rewrite Ho, IH. }
  rewrite E. now rewrite objects_of_JObj.
Qed.

Section Facts.

Variable ToNumber : option JSON -> float.
Variable hit : option JSON -> float -> bool.

Local Abbreviation drawKeyframes := (drawKeyframes ToNumber).
Local Abbreviation handle := (handle ToNumber hit).
Local Abbreviation run := (run ToNumber hit).

Lemma draw_times (st : State) : times (keyframes (drawKeyframes st)) = times (keyframes st).
Proof.
  unfold times, drawKeyframes. simpl. rewrite map_map. apply map_ext.
  intros o. apply get_set_other. discriminate.
Qed.

Lemma draw_has_time (st : State) :
  Forall (fun o => has "time" o = true) (keyframes st) ->
  Forall (fun o => has "time" o = true) (keyframes (drawKeyframes st)).
Proof.
  intros H. unfold drawKeyframes. cbn [keyframes]. apply Forall_map.
  eapply Forall_impl; [|exact H]. intros o Ho. cbv beta zeta.
  apply has_get. rewrite get_set_other by discriminate. now apply has_get.
Qed.

Lemma run_has_time (events : list Event) (st : State) :
  Forall (fun o => has "time" o = true) (keyframes st) ->
  Forall (fun o => has "time" o = true) (keyframes (run st events)).
Proof.
  unfold Editor.run. revert st.
  induction events as [|e events IH]; intros st H; [exact H|].
  cbn [fold_left]. apply IH.
  destruct e as [d w|w|t|x|[json|]|]; cbn [Editor.handle].
  - apply draw_has_time. exact H.
  - apply draw_has_time. exact H.
  - apply draw_has_time. cbn [keyframes]. apply Forall_app. split; [exact H|].
    constructor; [reflexivity|constructor].
  - pose proof (remove_first_spec (fun kf => hit (get "x" kf) x) (keyframes st)) as R.
    destruct (remove_first _ (keyframes st)) as [l|]; [|exact H].
    destruct R as (before & k & after & E & -> & _ & _).
    apply draw_has_time. cbn [keyframes]. rewrite E in H.
    apply Forall_app in H. destruct H as [Hb Ha]. inversion Ha; subst.
    apply Forall_app. split; assumption.
  - destruct (accepted json) as [l|] eqn:A; [|exact H].
    apply draw_has_time. cbn [keyframes]. now apply accepted_spec in A.
  - exact H.
  - apply draw_has_time. constructor.
Qed.

(** X13. Whatever the user does in the editor (load a video, resize, add a
    keyframe, delete one, drop a JSON file, good or bad, clear), every
    keyframe of the editor has a [time] property. *)
Theorem every_keyframe_has_time (events : list Event) :
  Forall (fun o => has "time" o = true) (keyframes (run start events)).
Proof. apply run_has_time. constructor. Qed.

(** X14. Saving strips the drawing position and nothing else: the saved
    keyframes are as many as the keyframes of the editor, in the same order,
    none has a property [x], and every other property has the value it has in
    the editor. *)
Theorem saved_keyframes (st : State) :
  let saved := keyframesToSave st in
  List.length saved = List.length (keyframes st) /\
  Forall (fun o => has "x" o = false) saved /\
  (forall k, k <> "x" -> map (get k) saved = map (get k) (keyframes st)).
Proof.
  cbv zeta. unfold keyframesToSave. split; [apply length_map|]. split.
  - apply Forall_map. apply Forall_forall. intros o _. apply has_without_x.
  - intros k Hk. rewrite map_map. apply map_ext. intros o. now apply get_without_x.
Qed.

(** X15. What the editor saves, it loads: the array the save handler
    serialises passes the validation of the drop handler, and dropping it
    (on any state of the editor) gives keyframes with the same [time] values
    in the same order.  [JSON.stringify] and [JSON.parse] in between are not
    modelled. *)
Theorem save_then_drop (events : list Event) (st' : State) :
  let st := run start events in
  let loaded := handle st' (DropJson (Some (JArr (map JObj (keyframesToSave st))))) in
  accepted (JArr (map JObj (keyframesToSave st))) = Some (keyframesToSave st) /\
  times (keyframes loaded) = times (keyframes st).
Proof.
  cbv zeta.
  assert (A : accepted (JArr (map JObj (keyframesToSave (run start events))))
              = Some (keyframesToSave (run start events))).
  { apply accepted_saved. unfold keyframesToSave. apply Forall_map.
    eapply Forall_impl; [|apply run_has_time; constructor].
    intros o Ho. cbv beta. apply has_get. rewrite get_without_x by discriminate.
    now apply has_get. }
  split; [exact A|].
  cbn [Editor.handle]. rewrite A. rewrite draw_times. cbn [keyframes].
  unfold times, keyframesToSave. rewrite map_map. apply map_ext.
  intros o. apply get_without_x. discriminate.
Qed.

(** X16. A right click deletes one keyframe at most: when no keyframe is hit
    the editor stays as it is; otherwise the first keyframe hit, in the order
    of the list, is removed, and the other keyframes keep their times and
    their order. *)
Theorem context_menu_deletes_first_hit (st : State) (x : float) :
  let st' := handle st (ContextMenu x) in
  (forallb (fun kf => negb (hit (get "x" kf) x)) (keyframes st) = true /\ st' = st) \/
  (exists before k after,
      keyframes st = before ++ k :: after /\
      hit (get "x" k) x = true /\
      forallb (fun kf => negb (hit (get "x" kf) x)) before = true /\
      times (keyframes st') = times before ++ times after /\
      S (List.length (keyframes st')) = List.length (keyframes st)).
Proof.
  cbv zeta. cbn [Editor.handle].
  pose proof (remove_first_spec (fun kf => hit (get "x" kf) x) (keyframes st)) as R.
  destruct (remove_first _ (keyframes st)) as [l|].
  - right. destruct R as (before & k & after & E & -> & Hk & Hb).
    exists before, k, after. repeat split; auto.
    + rewrite draw_times. cbn [keyframes]. unfold times. apply map_app.
    + unfold Editor.drawKeyframes. cbn [keyframes]. rewrite length_map, E, !length_app.
      simpl. lia.
  - left. split; [exact R|reflexivity].
Qed.

End Facts.
End EditorFacts.

(** ** The further theorems at concrete inputs *)

Section MoreWitnesses.

(** [plan_boundaries] on binary64: a doubled keyframe is left out, a keyframe
    back in time is kept. *)
Lemma plan_boundaries_witness :
  Forall (fun kf : Keyframe float => is_finite (Time kf) = true)
         (map kf64 [0; 0.5; 0.5; 1.1; 0.5]%float) /\
  map (@sourceEnd float) (emitted 120%float (map kf64 [0; 0.5; 0.5; 1.1; 0.5]%float))
  = [0.5; 1.1; 0.5]%float.
Proof.
  assert (H : Forall (fun kf : Keyframe float => is_finite (Time kf) = true)
                     (map kf64 [0; 0.5; 0.5; 1.1; 0.5]%float)).
  { repeat constructor. }
  split; [exact H|].
  exact (proj1 (@plan_boundaries float binary64 binary64_laws binary64_equal 120%float _ H)).
Defined.

(** [no_plan_iff_all_zero] on binary64: keyframes at 0 and -0 give no plan. *)
Lemma no_plan_iff_all_zero_witness :
  Forall (fun kf : Keyframe float => is_finite (Time kf) = true) (map kf64 [0; -0; 0]%float) /\
  ffmpegAdjustSpeed 120%float (map kf64 [0; -0; 0]%float)
  = inl "no segments to process"%string.
Proof.
  assert (H : Forall (fun kf : Keyframe float => is_finite (Time kf) = true)
                     (map kf64 [0; -0; 0]%float)).
  { repeat constructor. }
  split; [exact H|].
  apply (proj2 (@no_plan_iff_all_zero float binary64 binary64_laws binary64_equal
                  120%float _ H)).
  repeat constructor.
Defined.

(** [retiming_is_small] at the first segment of the keyframes 129/256 and
    2065/4096, 60 bpm. *)
Lemma retiming_is_small_witness :
  let plan := emitted 60%Q (map kfQ [129 # 256; 2065 # 4096]%Q) in
  let s := nth 0 plan {| sourceStart := 0; sourceEnd := 0; speedFactor := 0; label := 0 |}%Q in
  (0 < 60)%Q /\ In s plan /\
  (Qabs (nearestBeatTime (60 / 60) (sourceEnd s) - sourceEnd s) <= 60 / 60 / 200)%Q.
Proof.
  cbv zeta.
  assert (Hb : (0 < 60)%Q) by reflexivity.
  assert (Hin : In (nth 0 (emitted 60%Q (map kfQ [129 # 256; 2065 # 4096]%Q))
                      {| sourceStart := 0; sourceEnd := 0; speedFactor := 0; label := 0 |}%Q)
                   (emitted 60%Q (map kfQ [129 # 256; 2065 # 4096]%Q))).
  { vm_compute. left. reflexivity. }
  split; [exact Hb|]. split; [exact Hin|].
  exact (proj1 (@retiming_is_small _ _ _ Hb Hin)).
Defined.

(** [nearest_beat_idempotent] at 60 bpm and 1.234 s. *)
Lemma nearest_beat_idempotent_witness :
  (0 < 60)%Q /\
  (nearestBeatTime (60 / 60) (nearestBeatTime (60 / 60) (1234 # 1000))
   == nearestBeatTime (60 / 60) (1234 # 1000))%Q.
Proof.
  assert (Hb : (0 < 60)%Q) by reflexivity.
  split; [exact Hb|]. exact (@nearest_beat_idempotent 60%Q (1234 # 1000)%Q Hb).
Defined.

(** [on_grid_keeps_speed] at the second segment of the keyframes 0, 0.5, 1.1,
    60 bpm. *)
Lemma on_grid_keeps_speed_witness :
  let plan := emitted 60%Q (map kfQ [0; 1 # 2; 11 # 10]%Q) in
  let s := nth 1 plan {| sourceStart := 0; sourceEnd := 0; speedFactor := 0; label := 0 |}%Q in
  (0 < 60)%Q /\ In s plan /\
  (nearestBeatTime (60 / 60) (sourceEnd s) == sourceEnd s)%Q /\
  (speedFactor s == 1)%Q.
Proof.
  cbv zeta.
  assert (Hb : (0 < 60)%Q) by reflexivity.
  assert (Hin : In (nth 1 (emitted 60%Q (map kfQ [0; 1 # 2; 11 # 10]%Q))
                      {| sourceStart := 0; sourceEnd := 0; speedFactor := 0; label := 0 |}%Q)
                   (emitted 60%Q (map kfQ [0; 1 # 2; 11 # 10]%Q))).
  { vm_compute. right. left. reflexivity. }
  assert (Hg : (nearestBeatTime (60 / 60)
                  (sourceEnd (nth 1 (emitted 60%Q (map kfQ [0; 1 # 2; 11 # 10]%Q))
                     {| sourceStart := 0; sourceEnd := 0; speedFactor := 0; label := 0 |}%Q))
                == sourceEnd (nth 1 (emitted 60%Q (map kfQ [0; 1 # 2; 11 # 10]%Q))
                     {| sourceStart := 0; sourceEnd := 0; speedFactor := 0; label := 0 |}%Q))%Q).
  { vm_compute. reflexivity. }
  split; [exact Hb|]. split; [exact Hin|]. split; [exact Hg|].
  exact (@on_grid_keeps_speed _ _ _ Hb Hin Hg).
Defined.

(** [estimate_range] on the keyframes 0.5, 0.6, 2.9: [ie] is 50, and so is
    the estimate. *)
Lemma estimate_range_witness :
  let kfs := map kfQ [1 # 2; 3 # 5; 29 # 10]%Q in
  (first_time kfs < last_time kfs)%Q /\
  (60 * inject_Z (Z.of_nat (List.length kfs) - 1) / (last_time kfs - first_time kfs)
   <= estimateBPM kfs)%Q /\
  Qred (60 * inject_Z (Z.of_nat (List.length kfs) - 1) / (last_time kfs - first_time kfs))
  = 50%Q.
Proof.
  cbv zeta.
  assert (H : (first_time (kfQ (1 # 2) :: kfQ (3 # 5) :: [kfQ (29 # 10)])
               < last_time (kfQ (1 # 2) :: kfQ (3 # 5) :: [kfQ (29 # 10)]))%Q) by reflexivity.
  split; [exact H|]. split.
  - exact (proj1 (proj2 (@estimate_range (kfQ (1 # 2)) (kfQ (3 # 5)) [kfQ (29 # 10)] H))).
  - vm_compute. reflexivity.
Defined.

(** [estimate_of_identical_times] on three keyframes at 5 s. *)
Lemma estimate_of_identical_times_witness :
  is_finite 5%float = true /\
  Forall (fun kf : Keyframe float => Time kf = 5%float) (map kf64 [5; 5; 5]%float) /\
  (Z.of_nat (List.length (map kf64 [5; 5; 5]%float)) < 2 ^ 63)%Z /\
  estimateBPM (map kf64 [5; 5; 5]%float) = infinity.
Proof.
  assert (H1 : is_finite 5%float = true) by reflexivity.
  assert (H2 : Forall (fun kf : Keyframe float => Time kf = 5%float)
                      (kf64 5%float :: kf64 5%float :: [kf64 5%float])).
  { repeat constructor. }
  assert (H3 : (Z.of_nat (List.length (kf64 5%float :: kf64 5%float :: [kf64 5%float]))
                < 2 ^ 63)%Z) by reflexivity.
  repeat (split; [assumption|]).
  exact (@estimate_of_identical_times 5%float _ _ _ H1 H2 H3).
Defined.

(** [pulses_within_video] for 10 s of video at 120 bpm: 21 pulses, the last
    one starting at 10 s. *)
Lemma pulses_within_video_witness :
  (0 < 120)%Q /\ (0 <= 10)%Q /\
  (0 <= to_int (10 / (60 / 120))%Q)%Z /\
  to_int (10 / (60 / 120))%Q = 20%Z /\
  (10 < inject_Z (to_int (10 / (60 / 120))%Q + 1) * (60 / 120))%Q.
Proof.
  assert (Hb : (0 < 120)%Q) by reflexivity.
  assert (Ht : (0 <= 10)%Q) by discriminate.
  pose proof (@pulses_within_video 10%Q 120%Q Hb Ht) as H. cbv zeta in H.
  destruct H as (H1 & _ & H3).
  split; [exact Hb|]. split; [exact Ht|]. split; [exact H1|]. split; [reflexivity|exact H3].
Defined.

End MoreWitnesses.

Section MoreScenarios.

(** [int(f)] on binary64 discards the fraction; pulses for 10 s at 120 bpm
    are labelled 0 to 20. *)
Example pulse_examples :
  map Binary64_to_int [2.7; -2.7; 0.5; 20]%float = [2; -2; 0; 20]%Z /\
  map (@out float) (fst (addPulseToVideo 10 120)%float)
  = [0; 1; 2; 3; 4; 5; 6; 7; 8; 9; 10; 11; 12; 13; 14; 15; 16; 17; 18; 19; 20]%Z /\
  snd (addPulseToVideo 10 120)%float = 20%Z.
Proof. repeat split; vm_compute; reflexivity. Qed.

End MoreScenarios.
